(** * RoadLocalize: a shallow embedding of [roadlocalize/localize.py]

    The development follows the classes of the Python module:
    [TranslationStore], [Formatter], [Translator] and the [I18n] facade.
    Python values keep their shape: a [str] is a sequence of Unicode code
    points, an [int] is a [Z], a [float] is an IEEE-754 value
    ([spec_float]), a [dict] with string keys is a finite map or, where
    iteration order matters, an association list. *)

From Stdlib Require Import ZArith NArith List String Ascii Lia.
From Stdlib Require Import Floats.SpecFloat DecimalPos.
From stdpp Require Import gmap list fin_maps.
Import ListNotations.

Local Open Scope N_scope.

(** ** Python strings and the few built-ins the module relies on *)

(** A Python [str]: the list of its code points. *)
Abbreviation pystr := (list N) (only parsing).

Module PyStr.

(** Decoder for the UTF-8 bytes of a literal, so that the texts of the
    source ("€", "年") can be written as they are. *)
Fixpoint utf8_decode (bs : list N) : pystr :=
  match bs with
  | [] => []
  | b :: rest =>
      if b <? 128 then b :: utf8_decode rest
      else if b <? 224 then
        match rest with
        | c1 :: r => ((b - 192) * 64 + (c1 - 128)) :: utf8_decode r
        | _ => [b]
        end
      else if b <? 240 then
        match rest with
        | c1 :: c2 :: r =>
            ((b - 224) * 4096 + (c1 - 128) * 64 + (c2 - 128)) :: utf8_decode r
        | _ => [b]
        end
      else
        match rest with
        | c1 :: c2 :: c3 :: r =>
            ((b - 240) * 262144 + (c1 - 128) * 4096 + (c2 - 128) * 64 + (c3 - 128))
              :: utf8_decode r
        | _ => [b]
        end
  end.

(** [u "text"] is the Python string written [text]. *)
Definition u (s : string) : pystr :=
  utf8_decode (map N_of_ascii (list_ascii_of_string s)).

(** The ASCII digit of a value below ten. *)
Definition digit_char (d : N) : N := 48 + d.

Definition is_digit (c : N) : bool := (48 <=? c) && (c <=? 57).

(** The characters of a formatted integer: digits, and the sign. *)
Definition numeral_char (c : N) : Prop := is_digit c = true ∨ c = 45.

(** Decimal digits of a natural number, most significant first
    (["0"] for zero). *)
Fixpoint uint_chars (d : Decimal.uint) : pystr :=
  match d with
  | Decimal.Nil => []
  | Decimal.D0 d => digit_char 0 :: uint_chars d
  | Decimal.D1 d => digit_char 1 :: uint_chars d
  | Decimal.D2 d => digit_char 2 :: uint_chars d
  | Decimal.D3 d => digit_char 3 :: uint_chars d
  | Decimal.D4 d => digit_char 4 :: uint_chars d
  | Decimal.D5 d => digit_char 5 :: uint_chars d
  | Decimal.D6 d => digit_char 6 :: uint_chars d
  | Decimal.D7 d => digit_char 7 :: uint_chars d
  | Decimal.D8 d => digit_char 8 :: uint_chars d
  | Decimal.D9 d => digit_char 9 :: uint_chars d
  end.

Definition digits (n : N) : pystr := uint_chars (N.to_uint n).

Definition minus : pystr := [45].

Definition sign_of (neg : bool) : pystr := if neg then minus else [].

(** [str(z)] for an [int]. *)
Definition str_int (z : Z) : pystr :=
  sign_of (z <? 0)%Z ++ digits (Z.abs_N z).

(** [f"{z:0{w}d}"]: sign first, then zeros up to a total width [w]. *)
Definition format_0d (w : nat) (z : Z) : pystr :=
  let s := sign_of (z <? 0)%Z in
  let ds := digits (Z.abs_N z) in
  s ++ repeat (digit_char 0) (w - length s - length ds) ++ ds.

(** [s[-k:]] for [k > 0]: the last [k] characters, all of [s] when it is
    shorter. *)
Definition last_chars (k : nat) (s : pystr) : pystr :=
  drop (length s - k) s.

(** [is_prefix p s]: [s.startswith(p)]. *)
Fixpoint is_prefix (p s : pystr) : bool :=
  match p, s with
  | [], _ => true
  | a :: p', b :: s' => (a =? b) && is_prefix p' s'
  | _ :: _, [] => false
  end.

(** [old in s]. *)
Fixpoint occurs (old s : pystr) : bool :=
  is_prefix old s ||
  match s with
  | [] => false
  | _ :: s' => occurs old s'
  end.

(** The scan of [str.replace] for a non-empty [old]: left to right, an
    occurrence found at the current position is replaced and the scan
    resumes after it ([skip] counts the characters of the occurrence
    still to pass over); the text inserted is never looked at again. *)
Fixpoint replace_go (old new : pystr) (skip : nat) (s : pystr) : pystr :=
  match s with
  | [] => []
  | c :: s' =>
      match skip with
      | S k => replace_go old new k s'
      | O =>
          if is_prefix old s
          then new ++ replace_go old new (length old - 1) s'
          else c :: replace_go old new 0 s'
      end
  end.

(** [s.replace(old, new)]. With an empty [old] Python inserts [new]
    before every character and at the end. *)
Definition replace (old new s : pystr) : pystr :=
  match old with
  | [] => new ++ flat_map (fun c => c :: new) s
  | _ :: _ => replace_go old new 0 s
  end.

(** Truth value of a string: [s or t]. *)
Definition str_or (s : option pystr) (t : pystr) : pystr :=
  match s with
  | Some (c :: r) => c :: r
  | _ => t
  end.

End PyStr.

Import PyStr.

(** ** Numbers as Python renders them *)

(** A finite [decimal.Decimal]: [(-1)^sign * coefficient * 10^exponent].
    The special values (infinities, NaNs) are not modelled. *)
Record Decimal := {
  dec_sign : bool;
  dec_coefficient : N;
  dec_exponent : Z
}.

(** The values [Formatter.number] is annotated for:
    [Union[int, float, Decimal]]. A [bool] is the [int] 0 or 1. *)
Inductive number_value :=
  | VInt (z : Z)
  | VFloat (f : spec_float)
  | VDecimal (d : Decimal).

Module PyFormat.

(** Digit grouping of the [","] format option: a separator goes after
    a digit exactly when the digits that remain are a positive multiple
    of three. *)
Fixpoint group3 (sep ds : pystr) : pystr :=
  match ds with
  | [] => []
  | d :: rest =>
      d :: (if (0 <? length rest)%nat && (length rest mod 3 =? 0)%nat
            then sep ++ group3 sep rest
            else group3 sep rest)
  end.

(** Rounding of the fraction [num / den] to the nearest integer, ties to
    even: the rounding of [float.__format__], and of [Decimal.__format__]
    under the default context. *)
Definition round_half_even (num den : N) : N :=
  let q := num / den in
  let r := num mod den in
  if den <? 2 * r then q + 1
  else if (2 * r =? den) && N.odd q then q + 1
  else q.

(** The last [d] decimal digits of [n], most significant first. *)
Fixpoint digits_fixed (d : nat) (n : N) : pystr :=
  match d with
  | O => []
  | S d' => digits_fixed d' (n / 10) ++ [digit_char (n mod 10)]
  end.

(** The digits of [num / den] rounded to [d] places: those of the
    integer part, and exactly [d] fractional ones. *)
Definition fixed_digits (num den : N) (d : nat) : pystr * pystr :=
  let scale := 10 ^ N.of_nat d in
  let q := round_half_even (num * scale) den in
  (digits (q / scale), digits_fixed d (q mod scale)).

(** The shape shared by every rendering of a finite number: sign,
    grouped integer digits, and a radix mark with the fractional digits
    when there are any. *)
Definition assemble (thousand radix : pystr) (neg : bool)
    (parts : pystr * pystr) : pystr :=
  sign_of neg ++ group3 thousand (fst parts) ++
  match snd parts with
  | [] => []
  | _ :: _ => radix ++ snd parts
  end.

(** Exact magnitude [num / den] of a finite [float] and of a
    [Decimal]. *)
Definition float_fraction (m : positive) (e : Z) : N * N :=
  if (0 <=? e)%Z then (Npos m * 2 ^ Z.to_N e, 1)
  else (Npos m, 2 ^ Z.to_N (- e)).

Definition decimal_fraction (d : Decimal) : N * N :=
  if (0 <=? dec_exponent d)%Z
  then (dec_coefficient d * 10 ^ Z.to_N (dec_exponent d), 1)
  else (dec_coefficient d, 10 ^ Z.to_N (- dec_exponent d)).

(** The text of a number with [thousand] between the groups of the
    integer part and [radix] before the fractional digits. An [int] has
    no fractional digits; a [float] or [Decimal] has [d] of them. *)
Definition render_number (thousand radix : pystr) (v : number_value)
    (d : nat) : pystr :=
  match v with
  | VInt z => assemble thousand radix (z <? 0)%Z (digits (Z.abs_N z), [])
  | VFloat (S754_zero s) => assemble thousand radix s (fixed_digits 0 1 d)
  | VFloat (S754_finite s m e) =>
      assemble thousand radix s
        (fixed_digits (fst (float_fraction m e)) (snd (float_fraction m e)) d)
  | VFloat (S754_infinity s) => sign_of s ++ u "inf"
  | VFloat S754_nan => u "nan"
  | VDecimal x =>
      assemble thousand radix (dec_sign x)
        (fixed_digits (fst (decimal_fraction x)) (snd (decimal_fraction x)) d)
  end.

(** [f"{v:,}"] for an [int], [f"{v:,.{d}f}"] for a [float] or a
    [Decimal]: Python groups with [","] and marks the radix with ["."]. *)
Definition format_comma (v : number_value) (d : nat) : pystr :=
  render_number (u ",") (u ".") v d.

(** The double nearest to 100, and [x * 100] on doubles. *)
Definition float_100 : spec_float := S754_finite false 7036874417766400 (-46).

Definition float_mul (x y : spec_float) : spec_float := SFmul 53 1024 x y.

(** The default context of [decimal]: 28 digits, ties to even, adjusted
    exponents from -999999 to 999999; of its signals, [Overflow] is the
    one a finite product can raise. *)
Definition dec_prec : Z := 28.
Definition dec_Emax : Z := 999999.
Definition dec_Emin : Z := -999999.
Definition dec_Etiny : Z := dec_Emin - dec_prec + 1.
Definition dec_Etop : Z := dec_Emax - dec_prec + 1.

(** The rounding every operation of [decimal] ends with: a result of
    more than 28 digits, or below the smallest exponent, is rounded to
    fit; [None] when the context raises [Overflow]. *)
Definition decimal_fix (x : Decimal) : option Decimal :=
  if dec_coefficient x =? 0
  then Some {| dec_sign := dec_sign x; dec_coefficient := 0;
               dec_exponent :=
                 Z.min (Z.max (dec_exponent x) dec_Etiny) dec_Emax |}
  else
    let len := Z.of_nat (length (digits (dec_coefficient x))) in
    let exp_min := (len + dec_exponent x - dec_prec)%Z in
    if (dec_Etop <? exp_min)%Z then None
    else
      let exp_min := Z.max exp_min dec_Etiny in
      if (dec_exponent x <? exp_min)%Z
      then
        let q := round_half_even (dec_coefficient x)
                   (10 ^ Z.to_N (exp_min - dec_exponent x)) in
        let carried := (dec_prec <? Z.of_nat (length (digits q)))%Z in
        let coeff := if carried then q / 10 else q in
        let exp_min := if carried then (exp_min + 1)%Z else exp_min in
        if (dec_Etop <? exp_min)%Z then None
        else Some {| dec_sign := dec_sign x; dec_coefficient := coeff;
                     dec_exponent := exp_min |}
      else Some x.

(** [x * 100] on [Decimal]s: the coefficient times 100 under the same
    sign and exponent, then the rounding of the context. *)
Definition decimal_mul_100 (x : Decimal) : option Decimal :=
  decimal_fix {| dec_sign := dec_sign x;
                 dec_coefficient := dec_coefficient x * 100;
                 dec_exponent := dec_exponent x |}.

End PyFormat.

Import PyFormat.

(** ** Values of untyped positions *)

(** What a decoded JSON document, a [params] dictionary or a field
    annotated [Any] can hold. A [dict] keeps its insertion order. *)
#[warnings="-register-all"]
Inductive pyval :=
  | PNone
  | PBool (b : bool)
  | PInt (z : Z)
  | PFloat (f : spec_float)
  | PStr (s : pystr)
  | PList (l : list pyval)
  | PDict (d : list (pystr * pyval)).

(** The two tables of the Python runtime the module reaches through
    [re] and [str()], and which are no part of it: which non-ASCII code
    points are alphanumeric (for [\w]), and the text of a [float] or of a
    container. *)
Class PyBuiltins := {
  unicode_isalnum : N -> bool;
  str_other : pyval -> pystr
}.

Module PyVal.

(** [d.get(k)] on an ordered dictionary. *)
Fixpoint dict_get (d : list (pystr * pyval)) (k : pystr) : option pyval :=
  match d with
  | [] => None
  | (k', v) :: d' => if bool_decide (k' = k) then Some v else dict_get d' k
  end.

(** [k in d]. *)
Definition dict_in (k : pystr) (d : list (pystr * pyval)) : bool :=
  match dict_get d k with
  | Some _ => true
  | None => false
  end.

(** [str(v)]. *)
Definition py_str `{PyBuiltins} (v : pyval) : pystr :=
  match v with
  | PNone => u "None"
  | PBool true => u "True"
  | PBool false => u "False"
  | PInt z => str_int z
  | PStr s => s
  | _ => str_other v
  end.

End PyVal.

Import PyVal.

(** ** Data model *)

(** [class PluralForm(str, Enum)] *)
Inductive PluralForm := ZERO | ONE | TWO | FEW | MANY | OTHER.

(** [PluralForm.value] *)
Definition PluralForm_value (p : PluralForm) : pystr :=
  match p with
  | ZERO => u "zero"
  | ONE => u "one"
  | TWO => u "two"
  | FEW => u "few"
  | MANY => u "many"
  | OTHER => u "other"
  end.

(** [@dataclass class Locale] *)
Record Locale := {
  code : pystr;
  name : pystr;
  native_name : pystr;
  direction : pystr;
  date_format : pystr;
  time_format : pystr;
  number_decimal : pystr;
  number_thousand : pystr;
  currency_symbol : pystr;
  currency_position : pystr;
  plural_rule : option (Z -> PluralForm)
}.

(** [@dataclass class Translation]. The annotations say [value: str] and
    [plural_forms: Dict[str, str]]; [load_json] stores members of the
    input as they come, so both hold arbitrary values. *)
Record Translation := {
  key : pystr;
  locale : pystr;
  value : pyval;
  plural_forms : list (pystr * pyval);
  context : pystr;
  metadata : list (pystr * pyval)
}.

(** [datetime.date] and [datetime.datetime], as far as the formatter
    reads them. *)
Record date := {
  year : Z;
  month : Z;
  day : Z
}.

Record datetime := {
  dt_date : date;
  hour : Z;
  minute : Z;
  second : Z
}.

(** ** TranslationStore *)

Module TranslationStore.

(** [self.translations] (locale -> key -> translation) and
    [self.locales]. The lock serialises writers and has no part in a
    sequential run. *)
Record t := {
  translations : gmap pystr (gmap pystr Translation);
  locales : gmap pystr Locale
}.

Definition add_locale (self : t) (l : Locale) : t :=
  {| locales := <[code l := l]> (locales self);
     translations :=
       match translations self !! code l with
       | Some _ => translations self
       | None => <[code l := ∅]> (translations self)
       end |}.

Definition get_locale (self : t) (c : pystr) : option Locale :=
  locales self !! c.

Definition add_translation (self : t) (tr : Translation) : t :=
  let per_locale :=
    match translations self !! locale tr with
    | Some m => m
    | None => ∅
    end in
  {| locales := locales self;
     translations := <[locale tr := <[key tr := tr]> per_locale]> (translations self) |}.

Definition get_translation (self : t) (l k : pystr) : option Translation :=
  match translations self !! l with
  | Some m => m !! k
  | None => None
  end.

(** [f"{prefix}.{key}" if prefix else key] *)
Definition full_key (prefix k : pystr) : pystr :=
  match prefix with
  | [] => k
  | _ :: _ => prefix ++ u "." ++ k
  end.

(** [Translation(key=full_key, locale=locale, value=value.get("other", ""),
    plural_forms=value)] *)
Definition plural_translation (l fk : pystr) (bundle : list (pystr * pyval))
    : Translation :=
  {| key := fk; locale := l;
     value := match dict_get bundle (u "other") with
              | Some v => v
              | None => PStr []
              end;
     plural_forms := bundle; context := []; metadata := [] |}.

(** [Translation(key=full_key, locale=locale, value=str(value))] *)
Definition scalar_translation `{PyBuiltins} (l fk : pystr) (v : pyval)
    : Translation :=
  {| key := fk; locale := l; value := PStr (py_str v);
     plural_forms := []; context := []; metadata := [] |}.

(** ["one" in value or "other" in value] *)
Definition is_plural_bundle (d : list (pystr * pyval)) : bool :=
  dict_in (u "one") d || dict_in (u "other") d.

(** One turn of the loop of [load_json], for the entry stored under
    [fk]: the count it adds and the store it leaves. The recursive call
    [self.load_json(locale, value, full_key)] is the inner loop. *)
Fixpoint load_entry `{PyBuiltins} (l fk : pystr) (v : pyval) (self : t)
    {struct v} : nat * t :=
  match v with
  | PDict d =>
      if is_plural_bundle d
      then (1%nat, add_translation self (plural_translation l fk d))
      else
        (fix loop (items : list (pystr * pyval)) (count : nat) (self : t)
           {struct items} : nat * t :=
           match items with
           | [] => (count, self)
           | (k, v') :: rest =>
               let '(n, self') := load_entry l (full_key fk k) v' self in
               loop rest (count + n)%nat self'
           end) d 0%nat self
  | _ => (1%nat, add_translation self (scalar_translation l fk v))
  end.

(** The loop [for key, value in data.items()] with its counter. *)
Fixpoint load_items `{PyBuiltins} (l : pystr) (items : list (pystr * pyval))
    (prefix : pystr) (count : nat) (self : t) : nat * t :=
  match items with
  | [] => (count, self)
  | (k, v) :: rest =>
      let '(n, self') := load_entry l (full_key prefix k) v self in
      load_items l rest prefix (count + n)%nat self'
  end.

(** [load_json(self, locale, data, prefix="")] *)
Definition load_json `{PyBuiltins} (self : t) (l : pystr)
    (data : list (pystr * pyval)) (prefix : pystr) : nat * t :=
  load_items l data prefix 0%nat self.

Definition default_locale_record (c n nn : pystr) : Locale :=
  {| code := c; name := n; native_name := nn; direction := u "ltr";
     date_format := u "YYYY-MM-DD"; time_format := u "HH:mm:ss";
     number_decimal := u "."; number_thousand := u ",";
     currency_symbol := u "$"; currency_position := u "before";
     plural_rule := None |}.

Definition en_US : Locale :=
  default_locale_record (u "en-US") (u "English (US)") (u "English").

Definition en_GB : Locale :=
  {| code := u "en-GB"; name := u "English (UK)"; native_name := u "English";
     direction := u "ltr";
     date_format := u "DD/MM/YYYY"; time_format := u "HH:mm:ss";
     number_decimal := u "."; number_thousand := u ",";
     currency_symbol := u "£"; currency_position := u "before";
     plural_rule := None |}.

Definition es_ES : Locale :=
  {| code := u "es-ES"; name := u "Spanish"; native_name := u "Español";
     direction := u "ltr";
     date_format := u "YYYY-MM-DD"; time_format := u "HH:mm:ss";
     number_decimal := u ","; number_thousand := u ".";
     currency_symbol := u "€"; currency_position := u "after";
     plural_rule := None |}.

Definition fr_FR : Locale :=
  {| code := u "fr-FR"; name := u "French"; native_name := u "Français";
     direction := u "ltr";
     date_format := u "DD/MM/YYYY"; time_format := u "HH:mm:ss";
     number_decimal := u ","; number_thousand := u " ";
     currency_symbol := u "€"; currency_position := u "after";
     plural_rule := None |}.

Definition de_DE : Locale :=
  {| code := u "de-DE"; name := u "German"; native_name := u "Deutsch";
     direction := u "ltr";
     date_format := u "DD.MM.YYYY"; time_format := u "HH:mm:ss";
     number_decimal := u ","; number_thousand := u ".";
     currency_symbol := u "€"; currency_position := u "after";
     plural_rule := None |}.

Definition ja_JP : Locale :=
  {| code := u "ja-JP"; name := u "Japanese"; native_name := u "日本語";
     direction := u "ltr";
     date_format := u "YYYY年MM月DD日"; time_format := u "HH:mm:ss";
     number_decimal := u "."; number_thousand := u ",";
     currency_symbol := u "¥"; currency_position := u "before";
     plural_rule := None |}.

Definition ar_SA : Locale :=
  {| code := u "ar-SA"; name := u "Arabic"; native_name := u "العربية";
     direction := u "rtl";
     date_format := u "YYYY-MM-DD"; time_format := u "HH:mm:ss";
     number_decimal := u "."; number_thousand := u ",";
     currency_symbol := u "﷼"; currency_position := u "before";
     plural_rule := None |}.

(** [__init__]: empty maps, then [_setup_default_locales]. *)
Definition init : t :=
  fold_left add_locale [en_US; en_GB; es_ES; fr_FR; de_DE; ja_JP; ar_SA]
    {| translations := ∅; locales := ∅ |}.

End TranslationStore.

(** ** Formatter *)

Module Formatter.

(** A formatter is bound to one locale: [self.locale]. *)
Abbreviation t := Locale (only parsing).

Definition THOUSAND : pystr := u "THOUSAND".

(** [number(self, value, decimals=2)]. [decimals] is a precision; a
    negative one is refused by the format specification before any text
    is produced, and is left out of the model. *)
Definition number (self : t) (v : number_value) (decimals : nat) : pystr :=
  let formatted :=
    match v with
    | VInt _ => replace (u ",") THOUSAND (format_comma v decimals)
    | _ =>
        replace (u ".") (number_decimal self)
          (replace (u ",") THOUSAND (format_comma v decimals))
    end in
  replace THOUSAND (number_thousand self) formatted.

(** [currency(self, value, symbol=None)] *)
Definition currency (self : t) (v : number_value) (symbol : option pystr)
    : pystr :=
  let sym := str_or symbol (currency_symbol self) in
  let num := number self v 2 in
  if bool_decide (currency_position self = u "before")
  then sym ++ num
  else num ++ u " " ++ sym.

(** The [replacements] dictionary of [date], in insertion order: the
    four tokens, then the three date marks, each mapped to itself. *)
Definition date_tokens (v : date) : list (pystr * pystr) :=
  [ (u "YYYY", str_int (year v));
    (u "YY", last_chars 2 (str_int (year v)));
    (u "MM", format_0d 2 (month v));
    (u "DD", format_0d 2 (day v)) ].

Definition date_marks : list (pystr * pystr) :=
  [ (u "年", u "年");
    (u "月", u "月");
    (u "日", u "日") ].

Definition date_replacements (v : date) : list (pystr * pystr) :=
  date_tokens v ++ date_marks.

(** [for key, val in replacements.items(): result = result.replace(key, val)] *)
Definition replace_all (replacements : list (pystr * pystr)) (fmt : pystr)
    : pystr :=
  fold_left (fun result kv => replace (fst kv) (snd kv) result) replacements fmt.

(** [date(self, value, format_str=None)] *)
Definition date (self : t) (v : date) (format_str : option pystr) : pystr :=
  let fmt := str_or format_str (date_format self) in
  replace_all (date_replacements v) fmt.

Definition time_replacements (v : datetime) : list (pystr * pystr) :=
  [ (u "HH", format_0d 2 (hour v));
    (u "mm", format_0d 2 (minute v));
    (u "ss", format_0d 2 (second v)) ].

(** [time(self, value, format_str=None)] *)
Definition time (self : t) (v : datetime) (format_str : option pystr) : pystr :=
  let fmt := str_or format_str (time_format self) in
  replace_all (time_replacements v) fmt.

(** [value * 100]: on [int]s, on doubles, and on [Decimal]s, where the
    context can raise [Overflow]: [None] then. *)
Definition times_100 (v : number_value) : option number_value :=
  match v with
  | VInt z => Some (VInt (z * 100))
  | VFloat x => Some (VFloat (float_mul x float_100))
  | VDecimal x => VDecimal <$> decimal_mul_100 x
  end.

(** [f"{value:,.{decimals}f}"] for a [date] or a [datetime]: their
    [__format__] hands a specification that is not empty to [strftime],
    and this one holds no directive, so the text is the specification. *)
Definition date_format_spec (decimals : nat) : pystr :=
  u ",." ++ digits (N.of_nat decimals) ++ u "f".

(** [number(self, value, decimals)] for a [date] or a [datetime]: the
    branch of the values that are no [int], on that text. *)
Definition number_of_date (self : t) (decimals : nat) : pystr :=
  replace THOUSAND (number_thousand self)
    (replace (u ".") (number_decimal self)
       (replace (u ",") THOUSAND (date_format_spec decimals))).

(** [currency(self, value, symbol=None)] for a [date] or a [datetime]. *)
Definition currency_of_date (self : t) (symbol : option pystr) : pystr :=
  let sym := str_or symbol (currency_symbol self) in
  let num := number_of_date self 2 in
  if bool_decide (currency_position self = u "before")
  then sym ++ num
  else num ++ u " " ++ sym.

(** [percentage(self, value, decimals=1)]; [None] when [value * 100]
    raises. *)
Definition percentage (self : t) (v : number_value) (decimals : nat)
    : option pystr :=
  match times_100 v with
  | Some v' => Some (number self v' decimals ++ u "%")
  | None => None
  end.

End Formatter.

(** ** Translator *)

(** The caller's [params] dictionaries live in a heap of dictionary
    objects, so that a call can change the object it was handed. *)
Abbreviation params_dict := (gmap pystr pyval) (only parsing).
Abbreviation heap := (gmap positive (gmap pystr pyval)) (only parsing).

(** What a call yields: a string, or the [TypeError] of [re] when it is
    handed a text that is not a string. *)
Inductive outcome :=
  | Returns (s : pystr)
  | TypeError.

Module Translator.

Record t := {
  store : TranslationStore.t;
  default_locale : pystr;
  fallback_chain : gmap pystr (list pystr)
}.

(** [__init__(self, store, default_locale="en-US")] *)
Definition init (st : TranslationStore.t) (dl : pystr) : t :=
  {| store := st;
     default_locale := dl;
     fallback_chain :=
       list_to_map
         [ (u "en-GB", [u "en-US"]);
           (u "es-MX", [u "es-ES"]);
           (u "fr-CA", [u "fr-FR"]);
           (u "pt-BR", [u "pt-PT"]);
           (u "zh-TW", [u "zh-CN"]) ] |}.

(** [_get_plural_form(self, locale, count)] *)
Definition _get_plural_form (self : t) (l : pystr) (count : Z) : PluralForm :=
  match TranslationStore.get_locale (store self) l ≫= plural_rule with
  | Some rule => rule count
  | None =>
      if (count =? 0)%Z then ZERO
      else if (count =? 1)%Z then ONE
      else OTHER
  end.

(** [\w] of a [str] pattern: an alphanumeric character or the
    underscore. *)
Definition is_word `{PyBuiltins} (c : N) : bool :=
  if c <? 128
  then (48 <=? c) && (c <=? 57) || (65 <=? c) && (c <=? 90)
       || (97 <=? c) && (c <=? 122) || (c =? 95)
  else unicode_isalnum c.

(** The longest run of word characters at the head of [s], and what
    follows it. *)
Fixpoint span_word `{PyBuiltins} (s : pystr) : pystr * pystr :=
  match s with
  | [] => ([], [])
  | c :: s' =>
      if is_word c
      then let '(w, rest) := span_word s' in (c :: w, rest)
      else ([], s)
  end.

(** A match of [\{\{(\w+)\}\}] at the head of [s]: group 1 and the
    text after the match. The run of word characters is taken whole; a
    shorter one would be followed by a word character, not by ["}"]. *)
Definition match_placeholder `{PyBuiltins} (s : pystr)
    : option (pystr * pystr) :=
  if is_prefix (u "{{") s then
    match span_word (drop 2 s) with
    | (c :: w, rest) =>
        if is_prefix (u "}}") rest then Some (c :: w, drop 2 rest) else None
    | ([], _) => None
    end
  else None.

(** [match.group(0)] for the group [name]. *)
Definition placeholder (name : pystr) : pystr :=
  u "{{" ++ name ++ u "}}".

(** The inner function [replace(match)] of [_interpolate]. *)
Definition replace_match `{PyBuiltins} (params : gmap pystr pyval)
    (name : pystr) : pystr :=
  match params !! name with
  | Some v => py_str v
  | None => placeholder name
  end.

(** The scan of [pattern.sub(replace, text)]: left to right, a match at
    the current position is replaced and passed over, any other
    character is copied. *)
Fixpoint sub_go `{PyBuiltins} (params : gmap pystr pyval) (skip : nat)
    (s : pystr) : pystr :=
  match s with
  | [] => []
  | c :: s' =>
      match skip with
      | S k => sub_go params k s'
      | O =>
          match match_placeholder s with
          | Some (name, _) =>
              replace_match params name
                ++ sub_go params (length (placeholder name) - 1) s'
          | None => c :: sub_go params 0 s'
          end
      end
  end.

Definition sub `{PyBuiltins} (params : gmap pystr pyval) (text : pystr)
    : pystr :=
  sub_go params 0 text.

(** [_interpolate(self, text, params)] *)
Definition _interpolate `{PyBuiltins} (text : pyval)
    (params : gmap pystr pyval) : outcome :=
  match text with
  | PStr s => Returns (sub params s)
  | _ => TypeError
  end.

(** [locale or self.default_locale] *)
Definition locale_or_default (self : t) (l : option pystr) : pystr :=
  str_or l (default_locale self).

(** [[locale] + self.fallback_chain.get(locale, []) + [self.default_locale]] *)
Definition locales_to_try (self : t) (l : pystr) : list pystr :=
  [l] ++ default [] (fallback_chain self !! l) ++ [default_locale self].

(** [params or {}]: the caller's dictionary when there is one and it is
    not empty, a new empty dictionary otherwise. *)
Definition params_or_new (params : option positive) (h : heap)
    : positive * heap :=
  let new := fresh (dom h) in
  match params with
  | Some r =>
      match h !! r with
      | Some d => if bool_decide (d = ∅) then (new, <[new := ∅]> h) else (r, h)
      | None => (new, <[new := ∅]> h)
      end
  | None => (new, <[new := ∅]> h)
  end.

(** [translation.plural_forms.get(plural_form.value,
      translation.plural_forms.get("other", translation.value))] *)
Definition plural_text (tr : Translation) (form : PluralForm) : pyval :=
  match dict_get (plural_forms tr) (PluralForm_value form) with
  | Some v => v
  | None =>
      match dict_get (plural_forms tr) (u "other") with
      | Some v => v
      | None => value tr
      end
  end.

(** The body of [if translation:], up to its [return]. *)
Definition resolve `{PyBuiltins} (self : t) (try_locale : pystr)
    (tr : Translation) (params : positive) (count : option Z) (h : heap)
    : outcome * heap :=
  match count, plural_forms tr with
  | Some n, _ :: _ =>
      let text := plural_text tr (_get_plural_form self try_locale n) in
      let d := <[u "count" := PInt n]> (default ∅ (h !! params)) in
      (_interpolate text d, <[params := d]> h)
  | _, _ => (_interpolate (value tr) (default ∅ (h !! params)), h)
  end.

(** [for try_locale in locales_to_try: ...]; [None] when the loop ends
    without a [return]. *)
Fixpoint translate_loop `{PyBuiltins} (self : t) (k : pystr)
    (candidates : list pystr) (params : positive) (count : option Z)
    (h : heap) : option (outcome * heap) :=
  match candidates with
  | [] => None
  | try_locale :: rest =>
      match TranslationStore.get_translation (store self) try_locale k with
      | Some tr => Some (resolve self try_locale tr params count h)
      | None => translate_loop self k rest params count h
      end
  end.

(** [translate(self, key, locale=None, params=None, count=None,
    default=None)]; [params] is a reference into the heap. *)
Definition translate `{PyBuiltins} (self : t) (k : pystr)
    (l : option pystr) (params : option positive) (count : option Z)
    (dflt : option pystr) (h : heap) : outcome * heap :=
  let l := locale_or_default self l in
  let '(p, h1) := params_or_new params h in
  match translate_loop self k (locales_to_try self l) p count h1 with
  | Some r => r
  | None =>
      (Returns match dflt with
               | Some d => d
               | None => k
               end, h1)
  end.

(** [has_translation(self, key, locale=None)] *)
Definition has_translation (self : t) (k : pystr) (l : option pystr) : bool :=
  match TranslationStore.get_translation (store self)
          (locale_or_default self l) k with
  | Some _ => true
  | None => false
  end.

End Translator.

(** ** LocaleManager and the I18n facade *)

Module LocaleManager.

(** [_current_locale] holds the value of the running thread, [None]
    while it is unset. [_formatters] is the cache of formatters: a cached
    formatter is the locale it was built on, [None] for the
    [Formatter(None)] that is built when even the default locale is
    unknown. *)
Record t := {
  translator : Translator.t;
  _current_locale : option pystr;
  _formatters : gmap pystr (option Formatter.t)
}.

(** [LocaleManager(translator)]: no current locale, nothing cached. *)
Definition init (tr : Translator.t) : t :=
  {| translator := tr; _current_locale := None; _formatters := ∅ |}.

Definition current (self : t) : pystr :=
  default (Translator.default_locale (translator self)) (_current_locale self).

(** [get_formatter(self, locale=None)] with its effect on the cache. *)
Definition get_formatter (self : t) (l : option pystr)
    : option Formatter.t * t :=
  let l := str_or l (current self) in
  match _formatters self !! l with
  | Some f => (f, self)
  | None =>
      let st := Translator.store (translator self) in
      let f :=
        match TranslationStore.get_locale st l with
        | Some locale_obj => Some locale_obj
        | None =>
            TranslationStore.get_locale st
              (Translator.default_locale (translator self))
        end in
      (f, {| translator := translator self;
             _current_locale := _current_locale self;
             _formatters := <[l := f]> (_formatters self) |})
  end.

(** The manager after the store was written to: the same current locale
    and cache, beside another store. *)
Definition with_store (self : t) (st : TranslationStore.t) : t :=
  {| translator :=
       {| Translator.store := st;
          Translator.default_locale := Translator.default_locale (translator self);
          Translator.fallback_chain := Translator.fallback_chain (translator self) |};
     _current_locale := _current_locale self;
     _formatters := _formatters self |}.

(** [format_number(self, value, decimals)]; [None] when the formatter
    has no locale and the call raises. *)
Definition format_number (self : t) (v : number_value) (decimals : nat)
    : option pystr * t :=
  let '(f, self') := get_formatter self None in
  ((λ formatter, Formatter.number formatter v decimals) <$> f, self').

(** [format_currency(self, value)] *)
Definition format_currency (self : t) (v : number_value)
    : option pystr * t :=
  let '(f, self') := get_formatter self None in
  ((λ formatter, Formatter.currency formatter v None) <$> f, self').

(** [format_date(self, value)] *)
Definition format_date (self : t) (v : date) : option pystr * t :=
  let '(f, self') := get_formatter self None in
  ((λ formatter, Formatter.date formatter v None) <$> f, self').

End LocaleManager.

(** The values [I18n.format] is tried on: numbers, dates and strings. *)
Inductive format_value :=
  | ANumber (v : number_value)
  | ADate (d : date)
  | ADateTime (d : datetime)
  | AStr (s : pystr).

Module I18n.

Record t := {
  locale_manager : LocaleManager.t
}.

(** [__init__(self, default_locale="en-US")] *)
Definition init (dl : pystr) : t :=
  {| locale_manager :=
       LocaleManager.init (Translator.init TranslationStore.init dl) |}.

Definition translator (self : t) : Translator.t :=
  LocaleManager.translator (locale_manager self).

(** [load_translations(self, locale, translations)] *)
Definition load_translations `{PyBuiltins} (self : t) (l : pystr)
    (data : list (pystr * pyval)) : nat * t :=
  let '(n, st) :=
    TranslationStore.load_json (Translator.store (translator self)) l data [] in
  (n, {| locale_manager :=
           {| LocaleManager.translator :=
                {| Translator.store := st;
                   Translator.default_locale :=
                     Translator.default_locale (translator self);
                   Translator.fallback_chain :=
                     Translator.fallback_chain (translator self) |};
              LocaleManager._current_locale :=
                LocaleManager._current_locale (locale_manager self);
              LocaleManager._formatters :=
                LocaleManager._formatters (locale_manager self) |} |}).

(** [set_locale(self, locale)] *)
Definition set_locale (self : t) (l : pystr) : t :=
  {| locale_manager :=
       {| LocaleManager.translator := translator self;
          LocaleManager._current_locale := Some l;
          LocaleManager._formatters :=
            LocaleManager._formatters (locale_manager self) |} |}.

(** [isinstance(value, (int, float, Decimal))] *)
Definition as_number (v : format_value) : option number_value :=
  match v with
  | ANumber n => Some n
  | _ => None
  end.

(** [isinstance(value, (date, datetime))]; a [datetime] is a [date]. *)
Definition as_date (v : format_value) : option date :=
  match v with
  | ADate d => Some d
  | ADateTime d => Some (dt_date d)
  | _ => None
  end.

(** [formatter.number(value)] and [formatter.currency(value)] on the
    values [format] is tried on. A string is refused by the format
    specification: the call raises, [None]. *)
Definition number_of (formatter : Formatter.t) (v : format_value)
    : option pystr :=
  match v with
  | ANumber n => Some (Formatter.number formatter n 2)
  | ADate _ | ADateTime _ => Some (Formatter.number_of_date formatter 2)
  | AStr _ => None
  end.

Definition currency_of (formatter : Formatter.t) (v : format_value)
    : option pystr :=
  match v with
  | ANumber n => Some (Formatter.currency formatter n None)
  | ADate _ | ADateTime _ => Some (Formatter.currency_of_date formatter None)
  | AStr _ => None
  end.

(** The body of [format(self, value, format_type="auto")] after
    [get_formatter()], for a formatter that has a locale. The tests are
    those of the source, in its order; [None] when the call raises: a
    string has no [year], and no text of a number, also when it is
    repeated 100 times. A number or a date is taken by a branch before
    the last line. *)
Definition format_with (formatter : Formatter.t) (v : format_value)
    (format_type : pystr) : option pystr :=
  if bool_decide (format_type = u "number") || bool_decide (is_Some (as_number v))
  then number_of formatter v
  else if bool_decide (format_type = u "currency")
  then currency_of formatter v
  else if bool_decide (format_type = u "date") || bool_decide (is_Some (as_date v))
  then (fun d => Formatter.date formatter d None) <$> as_date v
  else if bool_decide (format_type = u "percentage")
  then as_number v ≫= (fun n => Formatter.percentage formatter n 1)
  else
    match v with
    | AStr s => Some s
    | _ => None
    end.

(** The same for the [Formatter(None)] of an unknown default locale:
    each of its methods raises, and only [str(value)] is left. *)
Definition format_without_locale (v : format_value) (format_type : pystr)
    : option pystr :=
  if bool_decide (format_type = u "number") || bool_decide (is_Some (as_number v))
  then None
  else if bool_decide (format_type = u "currency")
  then None
  else if bool_decide (format_type = u "date") || bool_decide (is_Some (as_date v))
  then None
  else if bool_decide (format_type = u "percentage")
  then None
  else
    match v with
    | AStr s => Some s
    | _ => None
    end.

(** [format(self, value, format_type="auto")]: the text, [None] when the
    call raises, and the manager with the formatter cached. *)
Definition format (self : t) (v : format_value) (format_type : pystr)
    : option pystr * t :=
  let '(f, lm) := LocaleManager.get_formatter (locale_manager self) None in
  (match f with
   | Some formatter => format_with formatter v format_type
   | None => format_without_locale v format_type
   end,
   {| locale_manager := lm |}).

(** [t(self, key, **kwargs)]: [translate] under the current locale. *)
Definition t_ `{PyBuiltins} (self : t) (k : pystr) (params : option positive)
    (count : option Z) (dflt : option pystr) (h : heap) : outcome * heap :=
  Translator.translate (translator self) k
    (Some (LocaleManager.current (locale_manager self))) params count dflt h.

End I18n.

(** ** Values and stores of the examples *)

(** The doubles nearest to 1234567.89, 99.99 and 0.5. *)
Definition float_1234567_89 : spec_float := S754_finite false 5302428712241725 (-32).
Definition float_99_99 : spec_float := S754_finite false 7036170730324623 (-46).
Definition float_0_5 : spec_float := S754_finite false 4503599627370496 (-53).

(** What the dictionary [params] refers to holds when the call starts:
    nothing when no dictionary was passed. *)
Definition params_content (params : option positive) (h : heap)
    : gmap pystr pyval :=
  default ∅ (params ≫= (h !!.)).

(** The store of the examples: an [I18n] with the translations of
    [example_usage] loaded under en-US. *)
Definition example_data : list (pystr * pyval) :=
  [ (u "greeting", PStr (u "Hello, {{name}}!"));
    (u "items", PDict [ (u "one", PStr (u "{{count}} item"));
                        (u "other", PStr (u "{{count}} items")) ]);
    (u "welcome", PStr (u "Welcome to BlackRoad")) ].

(** The entry "items" stands for. *)
Definition example_items : Translation :=
  {| key := u "items"; locale := u "en-US";
     value := PStr (u "{{count}} items");
     plural_forms := [ (u "one", PStr (u "{{count}} item"));
                       (u "other", PStr (u "{{count}} items")) ];
     context := []; metadata := [] |}.

Definition example_i18n `{PyBuiltins} : I18n.t :=
  snd (I18n.load_translations (I18n.init (u "en-US")) (u "en-US") example_data).

Definition example_translator `{PyBuiltins} : Translator.t :=
  I18n.translator example_i18n.

(** en-US with the date format of en-GB, and the manager of a new
    [I18n] that built the formatter of en-US before en-US was registered
    again with that format. *)
Definition en_US_day_first : Locale :=
  {| code := u "en-US"; name := u "English (US)";
     native_name := u "English"; direction := u "ltr";
     date_format := u "DD/MM/YYYY"; time_format := u "HH:mm:ss";
     number_decimal := u "."; number_thousand := u ",";
     currency_symbol := u "$"; currency_position := u "before";
     plural_rule := None |}.

Definition example_registered_again : LocaleManager.t :=
  LocaleManager.with_store
    (snd (LocaleManager.get_formatter
            (I18n.locale_manager (I18n.init (u "en-US"))) None))
    (TranslationStore.add_locale TranslationStore.init en_US_day_first).

(** ** Induction on values *)

Section PyvalInduction.

Variable P : pyval → Prop.
Hypothesis HNone : P PNone.
Hypothesis HBool : ∀ b, P (PBool b).
Hypothesis HInt : ∀ z, P (PInt z).
Hypothesis HFloat : ∀ f, P (PFloat f).
Hypothesis HStr : ∀ s, P (PStr s).
Hypothesis HList : ∀ l, Forall P l → P (PList l).
Hypothesis HDict : ∀ d, Forall (λ kv, P (snd kv)) d → P (PDict d).

(** Induction on a value that reaches the members of lists and
    dictionaries. *)
Fixpoint pyval_nested_ind (v : pyval) : P v :=
  match v with
  | PNone => HNone
  | PBool b => HBool b
  | PInt z => HInt z
  | PFloat f => HFloat f
  | PStr s => HStr s
  | PList l =>
      HList l ((fix members (l : list pyval) : Forall P l :=
                  match l with
                  | [] => List.Forall_nil P
                  | x :: l' => List.Forall_cons _ x l' (pyval_nested_ind x) (members l')
                  end) l)
  | PDict d =>
      HDict d ((fix members (d : list (pystr * pyval))
                  : Forall (λ kv, P (snd kv)) d :=
                  match d with
                  | [] => List.Forall_nil _
                  | kv :: d' =>
                      List.Forall_cons _ kv d' (pyval_nested_ind (snd kv)) (members d')
                  end) d)
  end.

End PyvalInduction.

(** A runtime to run the definitions on: no alphanumeric character
    beyond ASCII, floats and containers without a text. The examples touch
    neither table, and the theorems hold for every runtime. *)
Definition ascii_runtime : PyBuiltins :=
  {| unicode_isalnum := λ _, false; str_other := λ _, [] |}.

(** ** The flattening [load_json] is meant to perform *)

(** The translations one entry of the input stands for, in the order
    they are added: a plural bundle or a scalar is one translation, any
    other mapping stands for those of its members under the extended
    prefix. *)
Fixpoint leaf_translations `{PyBuiltins} (l fk : pystr) (v : pyval)
    {struct v} : list Translation :=
  match v with
  | PDict d =>
      if TranslationStore.is_plural_bundle d
      then [TranslationStore.plural_translation l fk d]
      else
        (fix members (items : list (pystr * pyval)) : list Translation :=
           match items with
           | [] => []
           | (k, v') :: rest =>
               leaf_translations l (TranslationStore.full_key fk k) v'
                 ++ members rest
           end) d
  | _ => [TranslationStore.scalar_translation l fk v]
  end.

Fixpoint flatten `{PyBuiltins} (l prefix : pystr)
    (data : list (pystr * pyval)) : list Translation :=
  match data with
  | [] => []
  | (k, v) :: rest =>
      leaf_translations l (TranslationStore.full_key prefix k) v
        ++ flatten l prefix rest
  end.

(** What the loop of [load_json] returns once the translations [ts] it
    adds are known: the counter advanced by their number, and the store
    with each of them added in turn. *)
Definition loaded (self : TranslationStore.t) (count : nat)
    (ts : list Translation) : nat * TranslationStore.t :=
  ((count + length ts)%nat, fold_left TranslationStore.add_translation ts self).

(** ** Token substitution by position *)

(** One pass over the format string: at each position the first entry of
    the table whose token starts there is replaced by its value and the
    token is passed over; any other character is copied. The values are
    written out and never read. *)
Fixpoint scan_tokens (table : list (pystr * pystr)) (skip : nat) (s : pystr)
    : pystr :=
  match s with
  | [] => []
  | c :: s' =>
      match skip with
      | S k => scan_tokens table k s'
      | O =>
          match find (λ kv, is_prefix (fst kv) s) table with
          | Some kv => snd kv ++ scan_tokens table (length (fst kv) - 1) s'
          | None => c :: scan_tokens table 0 s'
          end
      end
  end.

(** A token that is one character repeated. *)
Definition uniform (k : pystr) : Prop := ∃ c n, k = repeat c (S n).

(** A value that is not empty and has none of the characters of the
    tokens of the table. *)
Definition inert_for (table : list (pystr * pystr)) (v : pystr) : Prop :=
  v ≠ [] ∧ Forall (λ x, Forall (λ kv, x ∉ fst kv) table) v.

(** A table of uniform tokens whose values are inert. *)
Definition plain_table (table : list (pystr * pystr)) : Prop :=
  Forall (λ kv, uniform (fst kv) ∧ inert_for table (snd kv)) table.

(** [f] holds of the [n] integers from [start] on. *)
Fixpoint all_from (f : Z → bool) (n : nat) (start : Z) : bool :=
  match n with
  | O => true
  | S n' => f start && all_from f n' (start + 1)%Z
  end.

(** ** Templates *)

(** A text cut at its placeholders: literal stretches, each followed by
    the name of a placeholder, and a last literal stretch. *)
Definition render_template (segments : list (pystr * pystr)) (last : pystr)
    : pystr :=
  flat_map (λ seg, fst seg ++ Translator.placeholder (snd seg)) segments ++ last.

(** The same text with every placeholder replaced by what
    [replace(match)] returns for it. *)
Definition fill_template `{PyBuiltins} (params : gmap pystr pyval)
    (segments : list (pystr * pystr)) (last : pystr) : pystr :=
  flat_map (λ seg, fst seg ++ Translator.replace_match params (snd seg)) segments
    ++ last.

(** A name the pattern accepts: word characters, at least one. *)
Definition is_identifier `{PyBuiltins} (name : pystr) : bool :=
  match name with
  | [] => false
  | _ :: _ => forallb Translator.is_word name
  end.

(** Whether the pattern matches somewhere in [s]. *)
Fixpoint has_placeholder `{PyBuiltins} (s : pystr) : bool :=
  match Translator.match_placeholder s with
  | Some _ => true
  | None =>
      match s with
      | [] => false
      | _ :: s' => has_placeholder s'
      end
  end.

(** What may follow a literal stretch: the end of the text, or a
    placeholder. *)
Definition placeholder_or_end `{PyBuiltins} (rest : pystr) : Prop :=
  rest = [] ∨ ∃ name rest',
    is_identifier name = true ∧ rest = Translator.placeholder name ++ rest'.

Definition well_cut `{PyBuiltins} (segments : list (pystr * pystr))
    (last : pystr) : Prop :=
  Forall (λ seg, has_placeholder (fst seg) = false
                 ∧ is_identifier (snd seg) = true) segments
  ∧ has_placeholder last = false.

(** [I18n.get_locale(self)] *)
Definition I18n_get_locale (self : I18n.t) : pystr :=
  LocaleManager.current (I18n.locale_manager self).

(** The last translation of a list with a given locale and key. *)
Definition last_added (ts : list Translation) (l k : pystr)
    : option Translation :=
  find (λ tr, bool_decide (locale tr = l ∧ key tr = k)) (rev ts).


(** A store is keyed as its records say: a locale is filed under its own
    code, a translation under its own locale and key. *)
Definition keyed (st : TranslationStore.t) : Prop :=
  (∀ c loc, TranslationStore.get_locale st c = Some loc → code loc = c)
  ∧ (∀ l k tr, TranslationStore.get_translation st l k = Some tr →
               locale tr = l ∧ key tr = k).


(** * Properties *)

(** ** The replacement scan *)

Section ReplaceFacts.

Implicit Types old new p s x rest ds : pystr.
Implicit Types a c : N.

Lemma is_prefix_app p s : is_prefix p (p ++ s) = true.
Proof.
  induction p as [|a p IH]; simpl; [done|].
  by rewrite N.eqb_refl, IH.
Qed.

Lemma is_prefix_head a c p s :
  c ≠ a → is_prefix (a :: p) (c :: s) = false.
Proof.
  intros Hne. simpl. destruct (N.eqb_spec a c); [congruence|done].
Qed.

Lemma is_prefix_true p s : is_prefix p s = true → s = p ++ drop (length p) s.
Proof.
  revert s. induction p as [|a p IH]; intros s Hp; [done|].
  destruct s as [|b s]; [done|]. simpl in *.
  apply andb_true_iff in Hp as [Hab Hp]. apply N.eqb_eq in Hab as ->.
  f_equal. by apply IH.
Qed.

Lemma replace_go_skip old new x rest :
  replace_go old new (length x) (x ++ rest) = replace_go old new 0 rest.
Proof. induction x as [|c x IH]; simpl; done. Qed.

(** An occurrence at the head is replaced and the scan resumes behind it. *)
Lemma replace_hit old new rest :
  old ≠ [] → replace old new (old ++ rest) = new ++ replace old new rest.
Proof.
  destruct old as [|a p]; [done|]. intros _.
  unfold replace. cbn [replace_go app].
  change (a :: p ++ rest) with ((a :: p) ++ rest).
  rewrite is_prefix_app. f_equal.
  cbn [length]. replace (S (length p) - 1)%nat with (length p) by lia.
  apply replace_go_skip.
Qed.

(** A character that does not start an occurrence is copied. *)
Lemma replace_miss old new c s :
  is_prefix old (c :: s) = false →
  replace old new (c :: s) = c :: replace old new s.
Proof.
  intros Hp. unfold replace. destruct old as [|a p]; [done|].
  cbn [replace_go]. by rewrite Hp.
Qed.

Lemma replace_nil old new : old ≠ [] → replace old new [] = [].
Proof. by destruct old. Qed.

(** Characters other than the first of [old] are copied one by one. *)
Lemma replace_pass a p new x rest :
  Forall (λ c, c ≠ a) x →
  replace (a :: p) new (x ++ rest) = x ++ replace (a :: p) new rest.
Proof.
  intros Hx. induction Hx as [|c x Hc _ IH]; [done|].
  cbn [app]. rewrite replace_miss, IH; [done|].
  by apply is_prefix_head.
Qed.

Lemma replace_pass_all a p new x :
  Forall (λ c, c ≠ a) x → replace (a :: p) new x = x.
Proof.
  intros Hx. rewrite <- (app_nil_r x) at 1.
  rewrite replace_pass by done.
  by rewrite replace_nil, app_nil_r.
Qed.

(** Where [old] does not occur nothing changes. *)
Lemma replace_absent old new s :
  old ≠ [] → occurs old s = false → replace old new s = s.
Proof.
  intros Hne. induction s as [|c s IH]; intros Hocc.
  - by apply replace_nil.
  - cbn [occurs] in Hocc. apply orb_false_iff in Hocc as [Hp Hs].
    rewrite replace_miss by done. by rewrite IH.
Qed.

(** A word does not occur in a shorter text. *)
Lemma is_prefix_short p s : (length s < length p)%nat → is_prefix p s = false.
Proof.
  revert s. induction p as [|a p IH]; intros s Hlen; [cbn in Hlen; lia|].
  destruct s as [|c s]; [done|]. cbn [is_prefix length] in *.
  rewrite IH by lia. apply andb_false_r.
Qed.

Lemma occurs_short p s : (length s < length p)%nat → occurs p s = false.
Proof.
  induction s as [|c s IH]; intros Hlen; cbn [occurs].
  - by rewrite is_prefix_short.
  - rewrite is_prefix_short by done. cbn [length] in Hlen.
    rewrite IH by lia. done.
Qed.

(** The separators of a grouped digit string are exactly the
    occurrences of [old] in it. *)
Lemma replace_group3 a p new ds rest :
  Forall (λ c, c ≠ a) ds →
  replace (a :: p) new (group3 (a :: p) ds ++ rest)
  = group3 new ds ++ replace (a :: p) new rest.
Proof.
  intros Hds.
  assert (Hold : a :: p ≠ []) by done.
  assert (Hmiss : ∀ c s, c ≠ a → is_prefix (a :: p) (c :: s) = false)
    by (intros; by apply is_prefix_head).
  revert Hold Hmiss. generalize (a :: p) as old. intros old Hold Hmiss.
  induction Hds as [|d ds Hd _ IH]; [reflexivity|].
  cbn [group3]. rewrite <- !app_comm_cons.
  rewrite replace_miss by (by apply Hmiss).
  f_equal.
  destruct ((0 <? length ds)%nat && (length ds mod 3 =? 0)%nat); [|exact IH].
  rewrite <- !app_assoc, replace_hit by done.
  by rewrite IH.
Qed.

End ReplaceFacts.

(** ** Digits *)

Section DigitFacts.

Implicit Types s ds : pystr.

Lemma digit_char_is_digit (d : N) : d < 10 → is_digit (digit_char d) = true.
Proof.
  intros Hd. unfold is_digit, digit_char.
  apply andb_true_iff. split; apply N.leb_le; lia.
Qed.

Lemma uint_chars_digits (d : Decimal.uint) :
  Forall (λ c, is_digit c = true) (uint_chars d).
Proof. induction d; simpl; constructor; done. Qed.

Lemma digits_digits (n : N) : Forall (λ c, is_digit c = true) (digits n).
Proof. apply uint_chars_digits. Qed.

Lemma digits_fixed_digits (d : nat) (n : N) :
  Forall (λ c, is_digit c = true) (digits_fixed d n).
Proof.
  revert n. induction d as [|d IH]; intros n; simpl; [constructor|].
  apply Forall_app. split; [apply IH|].
  constructor; [|constructor].
  apply digit_char_is_digit. apply N.mod_lt. lia.
Qed.

Lemma digits_fixed_length (d : nat) (n : N) : length (digits_fixed d n) = d.
Proof.
  revert n. induction d as [|d IH]; intros n; simpl; [done|].
  rewrite length_app, IH. simpl. lia.
Qed.

(** A digit is none of the characters the formatter searches for. *)
Lemma digit_not (a : N) s :
  is_digit a = false → Forall (λ c, is_digit c = true) s →
  Forall (λ c, c ≠ a) s.
Proof.
  intros Ha Hs. eapply Forall_impl; [exact Hs|].
  intros c Hc ->. congruence.
Qed.

Lemma sign_not (a : N) (neg : bool) :
  a ≠ 45 → Forall (λ c, c ≠ a) (sign_of neg).
Proof.
  intros Ha. destruct neg; simpl; [|constructor].
  constructor; [congruence|constructor].
Qed.

Lemma group3_Forall (P : N → Prop) sep ds :
  Forall P sep → Forall P ds → Forall P (group3 sep ds).
Proof.
  intros Hsep Hds. induction Hds as [|d ds Hd _ IH]; simpl; [constructor|].
  constructor; [done|].
  destruct (_ && _); [apply Forall_app; split|]; done.
Qed.

(** Digits appended to a text create no occurrence of a word that has
    no digit in it. *)
Lemma is_prefix_app_digits p x ds :
  Forall (λ c, is_digit c = false) p →
  Forall (λ c, is_digit c = true) ds →
  is_prefix p x = false → is_prefix p (x ++ ds) = false.
Proof.
  intros Hp Hds. revert x. induction Hp as [|a p Ha _ IH]; intros x Hx.
  - by destruct x.
  - destruct x as [|b x]; cbn [app].
    + destruct Hds as [|d ds Hd _]; [done|]. simpl.
      destruct (N.eqb_spec a d); [congruence|done].
    + simpl in *. destruct (a =? b); [|done]. simpl in *. by apply IH.
Qed.

Lemma occurs_app_digits p x ds :
  p ≠ [] →
  Forall (λ c, is_digit c = false) p →
  Forall (λ c, is_digit c = true) ds →
  occurs p x = false → occurs p (x ++ ds) = false.
Proof.
  intros Hne Hp Hds. induction x as [|b x IH]; intros Hx.
  - cbn [app]. clear Hx. induction Hds as [|d ds Hd _ IHd].
    + by destruct p.
    + cbn [occurs]. rewrite IHd, orb_false_r.
      destruct Hp as [|a p Ha _]; [done|]. simpl.
      destruct (N.eqb_spec a d); [congruence|done].
  - cbn [occurs app] in *. apply orb_false_iff in Hx as [Hpre Hx].
    rewrite IH by done. rewrite orb_false_r.
    change (b :: x ++ ds) with ((b :: x) ++ ds).
    by apply is_prefix_app_digits.
Qed.

End DigitFacts.

(** ** Formatter.number *)

Section NumberFacts.

Implicit Types ip fp thousand radix : pystr.

Lemma THOUSAND_letters : Forall (λ c, is_digit c = false) Formatter.THOUSAND.
Proof. repeat constructor. Qed.

(** The three replacements of [number] on the text Python produced for
    a finite number: every [","] becomes the locale's group mark and the
    ["."] its radix mark. *)
Lemma number_replacements thousand radix neg ip fp :
  Forall (λ c, is_digit c = true) ip →
  Forall (λ c, is_digit c = true) fp →
  fp = [] ∨ occurs Formatter.THOUSAND radix = false →
  replace Formatter.THOUSAND thousand
    (replace [46] radix
       (replace [44] Formatter.THOUSAND (assemble [44] [46] neg (ip, fp))))
  = assemble thousand radix neg (ip, fp).
Proof.
  intros Hip Hfp Hradix. unfold assemble. cbn [fst snd].
  set (tail := match fp with [] => [] | _ :: _ => [46] ++ fp end).
  (* "," -> THOUSAND *)
  rewrite replace_pass by (by apply sign_not).
  rewrite replace_group3 by (by apply digit_not).
  rewrite (replace_pass_all 44 [] _ tail); cycle 1.
  { subst tail. destruct fp; [constructor|]. cbn [app].
    constructor; [done|]. by apply digit_not. }
  (* "." -> radix *)
  rewrite app_assoc.
  rewrite replace_pass; cycle 1.
  { apply Forall_app. split; [by apply sign_not|].
    apply group3_Forall; [repeat constructor; done | by apply digit_not]. }
  rewrite <- app_assoc.
  assert (Htail : replace [46] radix tail
                  = match fp with [] => [] | _ :: _ => radix ++ fp end).
  { subst tail. destruct fp as [|f fp']; [done|].
    rewrite replace_hit by done. f_equal.
    apply (replace_pass_all 46 []). by apply digit_not. }
  rewrite Htail. clear Htail tail.
  (* THOUSAND -> thousand *)
  unfold Formatter.THOUSAND.
  change (u "THOUSAND") with (84 :: [72; 79; 85; 83; 65; 78; 68]).
  rewrite replace_pass by (by apply sign_not).
  rewrite replace_group3 by (by apply digit_not).
  do 2 f_equal.
  destruct fp as [|f fp']; [done|].
  destruct Hradix as [|Hradix]; [done|].
  apply replace_absent; [done|].
  apply occurs_app_digits; [done | apply THOUSAND_letters | done | done].
Qed.

(** Texts without [","], ["."] or ["T"] go through unchanged. *)
Lemma number_replacements_plain thousand radix s :
  Forall (λ c, c ≠ 44 ∧ c ≠ 46 ∧ c ≠ 84) s →
  replace Formatter.THOUSAND thousand
    (replace [46] radix (replace [44] Formatter.THOUSAND s)) = s.
Proof.
  intros Hs. unfold Formatter.THOUSAND.
  change (u "THOUSAND") with (84 :: [72; 79; 85; 83; 65; 78; 68]).
  rewrite (replace_pass_all 44), (replace_pass_all 46), (replace_pass_all 84);
    [done|..]; (eapply Forall_impl; [exact Hs|]); by intros c (?&?&?).
Qed.

(** An [int] never meets the radix replacement. *)
Lemma number_replacements_int thousand radix neg ip :
  Forall (λ c, is_digit c = true) ip →
  replace Formatter.THOUSAND thousand
    (replace [44] Formatter.THOUSAND (assemble [44] [46] neg (ip, [])))
  = assemble thousand radix neg (ip, []).
Proof.
  intros Hip. unfold assemble. cbn [fst snd].
  rewrite replace_pass by (by apply sign_not).
  rewrite replace_group3 by (by apply digit_not).
  unfold Formatter.THOUSAND.
  change (u "THOUSAND") with (84 :: [72; 79; 85; 83; 65; 78; 68]).
  rewrite replace_pass by (by apply sign_not).
  rewrite replace_group3 by (by apply digit_not).
  done.
Qed.

End NumberFacts.

Section NumberTheorems.

Implicit Types self : Formatter.t.

Lemma number_int self z decimals :
  Formatter.number self (VInt z) decimals
  = render_number (number_thousand self) (number_decimal self) (VInt z) decimals.
Proof.
  unfold Formatter.number, format_comma, render_number.
  apply number_replacements_int, digits_digits.
Qed.

Lemma number_fraction self v decimals :
  decimals = 0%nat ∨ occurs Formatter.THOUSAND (number_decimal self) = false →
  Formatter.number self v decimals
  = render_number (number_thousand self) (number_decimal self) v decimals.
Proof.
  intros Hradix.
  assert (Hfin : ∀ neg num den,
    replace Formatter.THOUSAND (number_thousand self)
      (replace (u ".") (number_decimal self)
         (replace (u ",") Formatter.THOUSAND
            (assemble (u ",") (u ".") neg (fixed_digits num den decimals))))
    = assemble (number_thousand self) (number_decimal self) neg
        (fixed_digits num den decimals)).
  { intros neg num den. unfold fixed_digits.
    apply number_replacements;
      [apply digits_digits | apply digits_fixed_digits |].
    destruct Hradix as [-> | ?]; [by left | by right]. }
  destruct v as [z | x | x].
  - apply number_int.
  - unfold Formatter.number, format_comma.
    destruct x as [s | s | | s m e]; cbn [render_number].
    + apply Hfin.
    + apply number_replacements_plain. destruct s; repeat constructor; done.
    + apply number_replacements_plain. repeat constructor; done.
    + apply Hfin.
  - unfold Formatter.number, format_comma, render_number. apply Hfin.
Qed.

(** Every fourth digit from the right starts a new group. *)
Lemma group3_snoc3 (sep ds : pystr) (a b c : N) :
  ds ≠ [] → group3 sep (ds ++ [a; b; c]) = group3 sep ds ++ sep ++ [a; b; c].
Proof.
  induction ds as [|d ds IH]; [done|]. intros _.
  cbn [group3 app]. f_equal.
  rewrite length_app. cbn [length].
  destruct ds as [|d' ds'].
  - reflexivity.
  - rewrite IH by done.
    replace (0 <? length (d' :: ds') + 3)%nat with true
      by (symmetry; apply Nat.ltb_lt; lia).
    replace (0 <? length (d' :: ds'))%nat with true
      by (symmetry; apply Nat.ltb_lt; simpl; lia).
    replace ((length (d' :: ds') + 3) mod 3)%nat
      with (length (d' :: ds') mod 3)%nat
      by (rewrite <- (Nat.Div0.add_mod_idemp_r _ 3 3);
          by rewrite Nat.Div0.mod_same, Nat.add_0_r).
    cbn [andb]. destruct (_ =? _)%nat; by rewrite <- ?app_assoc.
Qed.

Lemma group3_short (sep ds : pystr) :
  (length ds ≤ 3)%nat → group3 sep ds = ds.
Proof.
  destruct ds as [|a [|b [|c [|d ds]]]]; simpl; intros; (done || lia).
Qed.

End NumberTheorems.

(** C6. The replacements of [Formatter.number] turn the text Python
    wrote with "," and "." into the same text with the locale's marks
    ([render_number]). An [int] is rendered as its sign and its digits
    grouped in threes from the right with [number_thousand], never with a
    fractional part, whatever [decimals] is; a finite [float] or [Decimal]
    as sign, integer digits grouped the same way and, when [decimals] is
    positive, [number_decimal] followed by exactly [decimals] digits. This
    is for a locale whose [number_decimal] does not contain the word
    THOUSAND the method uses as a placeholder, as is the case of every
    separator shorter than eight characters. 1234567.89 gives
    "1,234,567.89" under en-US and "1.234.567,89" under de-DE. *)
Theorem number_groups_and_radix :
  (∀ (self : Formatter.t) (v : number_value) (decimals : nat),
     occurs Formatter.THOUSAND (number_decimal self) = false →
     Formatter.number self v decimals
     = render_number (number_thousand self) (number_decimal self) v decimals)
  ∧ (∀ (self : Formatter.t) (z : Z) (decimals : nat),
     Formatter.number self (VInt z) decimals
     = sign_of (z <? 0)%Z ++ group3 (number_thousand self) (digits (Z.abs_N z)))
  ∧ (∀ (self : Formatter.t) (s : bool) (m : positive) (e : Z) (decimals : nat),
       occurs Formatter.THOUSAND (number_decimal self) = false →
       let num := fst (float_fraction m e) in
       let den := snd (float_fraction m e) in
       let ip := fst (fixed_digits num den decimals) in
       let fp := snd (fixed_digits num den decimals) in
       Formatter.number self (VFloat (S754_finite s m e)) decimals
       = sign_of s ++ group3 (number_thousand self) ip
           ++ match decimals with
              | O => []
              | S _ => number_decimal self ++ fp
              end
       ∧ length fp = decimals)
  ∧ (∀ (self : Formatter.t) (x : Decimal) (decimals : nat),
       occurs Formatter.THOUSAND (number_decimal self) = false →
       let num := fst (decimal_fraction x) in
       let den := snd (decimal_fraction x) in
       let ip := fst (fixed_digits num den decimals) in
       let fp := snd (fixed_digits num den decimals) in
       Formatter.number self (VDecimal x) decimals
       = sign_of (dec_sign x) ++ group3 (number_thousand self) ip
           ++ match decimals with
              | O => []
              | S _ => number_decimal self ++ fp
              end
       ∧ length fp = decimals)
  ∧ (∀ (self : Formatter.t),
       (length (number_decimal self) < 8)%nat →
       occurs Formatter.THOUSAND (number_decimal self) = false)
  ∧ (∀ (sep ds : pystr) (a b c : N),
       ds ≠ [] → group3 sep (ds ++ [a; b; c]) = group3 sep ds ++ sep ++ [a; b; c])
  ∧ (∀ (sep ds : pystr), (length ds ≤ 3)%nat → group3 sep ds = ds)
  ∧ Formatter.number TranslationStore.en_US (VFloat float_1234567_89) 2
    = u "1,234,567.89"
  ∧ Formatter.number TranslationStore.de_DE (VFloat float_1234567_89) 2
    = u "1.234.567,89".
Proof.
  assert (Hshape : ∀ thousand radix neg num den decimals,
    assemble thousand radix neg (fixed_digits num den decimals)
    = sign_of neg ++ group3 thousand (fst (fixed_digits num den decimals))
        ++ match decimals with
           | O => []
           | S _ => radix ++ snd (fixed_digits num den decimals)
           end).
  { intros. unfold assemble. do 2 f_equal.
    pose proof (digits_fixed_length decimals
      (round_half_even (num * 10 ^ N.of_nat decimals) den
         mod 10 ^ N.of_nat decimals)) as Hlen.
    unfold fixed_digits. cbn [snd].
    destruct (digits_fixed _ _), decimals; simpl in Hlen; done. }
  split; [|split; [|split; [|split; [|split; [|split; [|split; [|split]]]]]]].
  - intros self v decimals Hradix. apply number_fraction. by right.
  - intros self z decimals. rewrite number_int. unfold render_number, assemble.
    cbn [fst snd]. by rewrite app_nil_r.
  - intros self s m e decimals Hradix. cbn zeta. split.
    + rewrite number_fraction by (by right). cbn [render_number]. apply Hshape.
    + apply digits_fixed_length.
  - intros self x decimals Hradix. cbn zeta. split.
    + rewrite number_fraction by (by right). cbn [render_number]. apply Hshape.
    + apply digits_fixed_length.
  - intros self Hshort. by apply occurs_short.
  - apply group3_snoc3.
  - apply group3_short.
  - vm_compute. reflexivity.
  - vm_compute. reflexivity.
Qed.

Lemma number_groups_and_radix_witness :
  occurs Formatter.THOUSAND (number_decimal TranslationStore.de_DE) = false
  ∧ Formatter.number TranslationStore.de_DE (VFloat float_1234567_89) 2
    = u "1.234.567" ++ u "," ++ u "89".
Proof.
  split; [reflexivity|].
  exact (proj1 (proj1 (proj2 (proj2 number_groups_and_radix))
                  TranslationStore.de_DE false 5302428712241725%positive (-32)%Z 2%nat
                  eq_refl)).
Defined.

(** ** Formatter.currency *)

(** C9 (amended). [Formatter.currency] formats the magnitude with
    [number(value, 2)] and puts the symbol before the number with nothing
    between them when [currency_position] is "before", and after the
    number behind one space when it is "after", as for every other
    position. The symbol is the one passed, and the locale's when none
    or an empty one is passed. currency(99.99) is "$99.99" under en-US
    and, es-ES having "," for its decimal mark, "99,99 €" under es-ES. *)
Theorem currency_symbol_position :
  (∀ (self : Formatter.t) (v : number_value),
     currency_position self = u "before" →
     Formatter.currency self v None
     = currency_symbol self ++ Formatter.number self v 2)
  ∧ (∀ (self : Formatter.t) (v : number_value),
       currency_position self = u "after" →
       Formatter.currency self v None
       = Formatter.number self v 2 ++ u " " ++ currency_symbol self)
  ∧ Formatter.currency TranslationStore.en_US (VFloat float_99_99) None
    = u "$99.99"
  ∧ Formatter.currency TranslationStore.es_ES (VFloat float_99_99) None
    = u "99,99 €"
  ∧ (∀ (self : Formatter.t) (v : number_value) (c : N) (s : pystr),
       currency_position self = u "before" →
       Formatter.currency self v (Some (c :: s))
       = (c :: s) ++ Formatter.number self v 2)
  ∧ (∀ (self : Formatter.t) (v : number_value) (c : N) (s : pystr),
       currency_position self ≠ u "before" →
       Formatter.currency self v (Some (c :: s))
       = Formatter.number self v 2 ++ u " " ++ (c :: s))
  ∧ (∀ (self : Formatter.t) (v : number_value),
       currency_position self ≠ u "before" →
       Formatter.currency self v None
       = Formatter.number self v 2 ++ u " " ++ currency_symbol self)
  ∧ (∀ (self : Formatter.t) (v : number_value),
       Formatter.currency self v (Some []) = Formatter.currency self v None).
Proof.
  split; [|split; [|split; [|split; [|split; [|split; [|split]]]]]].
  - intros self v Hpos. unfold Formatter.currency.
    rewrite bool_decide_eq_true_2 by done. by destruct (currency_symbol self).
  - intros self v Hpos. unfold Formatter.currency.
    rewrite bool_decide_eq_false_2 by (rewrite Hpos; by vm_compute).
    by destruct (currency_symbol self).
  - vm_compute. reflexivity.
  - vm_compute. reflexivity.
  - intros self v c s Hpos. unfold Formatter.currency.
    by rewrite bool_decide_eq_true_2.
  - intros self v c s Hpos. unfold Formatter.currency.
    by rewrite bool_decide_eq_false_2.
  - intros self v Hpos. unfold Formatter.currency.
    rewrite bool_decide_eq_false_2 by done. by destruct (currency_symbol self).
  - done.
Qed.

Lemma currency_symbol_position_witness :
  currency_position TranslationStore.es_ES = u "after"
  ∧ Formatter.currency TranslationStore.es_ES (VFloat float_99_99) None
    = Formatter.number TranslationStore.es_ES (VFloat float_99_99) 2
        ++ u " " ++ currency_symbol TranslationStore.es_ES.
Proof.
  split; [reflexivity|].
  exact (proj1 (proj2 currency_symbol_position)
           TranslationStore.es_ES (VFloat float_99_99) eq_refl).
Defined.

(** C9 as stated fails: under es-ES currency(99.99) is not "99.99 €". *)
Lemma currency_es_ES_counterexample :
  Formatter.currency TranslationStore.es_ES (VFloat float_99_99) None
  ≠ u "99.99 €".
Proof. vm_compute. discriminate. Qed.

(** ** I18n.format *)

(** C1 (the code departs from it). A number is handed to
    [Formatter.number] whatever the tag says: the first test of
    [I18n.format] accepts every [int], [float] and [Decimal], so the
    "currency" and "percentage" branches are never reached for a number.
    format(99.99, "currency") is "99.99" where [Formatter.currency] gives
    "$99.99", and format(0.5, "percentage") is "0.50" where
    [Formatter.percentage] gives "50.0%". *)
Theorem format_number_ignores_tag :
  (∀ (formatter : Formatter.t) (n : number_value) (format_type : pystr),
     I18n.format_with formatter (ANumber n) format_type
     = Some (Formatter.number formatter n 2))
  ∧ fst (I18n.format (I18n.init (u "en-US")) (ANumber (VFloat float_99_99))
           (u "currency"))
    = Some (u "99.99")
  ∧ Formatter.currency TranslationStore.en_US (VFloat float_99_99) None
    = u "$99.99"
  ∧ fst (I18n.format (I18n.init (u "en-US")) (ANumber (VFloat float_0_5))
           (u "percentage"))
    = Some (u "0.50")
  ∧ Formatter.percentage TranslationStore.en_US (VFloat float_0_5) 1
    = Some (u "50.0%").
Proof.
  split; [|repeat split; vm_compute; reflexivity].
  intros formatter n format_type. unfold I18n.format_with.
  cbn [I18n.as_number].
  rewrite (bool_decide_eq_true_2 (is_Some (Some n))) by eauto.
  by rewrite orb_true_r.
Qed.

(** ** Translator.translate *)

Section TranslateFacts.

Context `{PyBuiltins}.

Implicit Types (self : Translator.t) (k c : pystr) (h : heap).
Implicit Types (params : option positive) (count : option Z).

Lemma translate_loop_first self k pre c post tr p count h :
  (∀ c', c' ∈ pre → TranslationStore.get_translation (Translator.store self) c' k = None) →
  TranslationStore.get_translation (Translator.store self) c k = Some tr →
  Translator.translate_loop self k (pre ++ c :: post) p count h
  = Some (Translator.resolve self c tr p count h).
Proof.
  intros Hpre Hc. induction pre as [|c0 pre IH]; cbn [app Translator.translate_loop].
  - by rewrite Hc.
  - rewrite (Hpre c0) by left. apply IH. intros c' Hc'. apply Hpre. by right.
Qed.

Lemma translate_loop_none self k cands p count h :
  (∀ c, c ∈ cands → TranslationStore.get_translation (Translator.store self) c k = None) →
  Translator.translate_loop self k cands p count h = None.
Proof.
  intros Hall. induction cands as [|c0 cands IH]; [done|].
  cbn [Translator.translate_loop]. rewrite (Hall c0) by left.
  apply IH. intros c Hc. apply Hall. by right.
Qed.

(** The dictionary the call works on holds what the caller's held. *)
Lemma params_or_new_content params h :
  default ∅ (snd (Translator.params_or_new params h)
               !! fst (Translator.params_or_new params h))
  = params_content params h.
Proof.
  unfold Translator.params_or_new, params_content.
  destruct params as [r|]; cbn [mbind option_bind].
  - destruct (h !! r) as [d|] eqn:Hr; cbn [default].
    + case_bool_decide as Hd; cbn [fst snd].
      * by rewrite lookup_insert_eq, Hd.
      * by rewrite Hr.
    + cbn [fst snd]. by rewrite lookup_insert_eq.
  - cbn [fst snd]. by rewrite lookup_insert_eq.
Qed.

(** A dictionary object the caller holds is not the new one. *)
Lemma params_or_new_keeps params h r :
  is_Some (h !! r) →
  snd (Translator.params_or_new params h) !! r = h !! r.
Proof.
  intros Hr. unfold Translator.params_or_new.
  assert (fresh (dom h) ≠ r) as Hfresh.
  { intros <-. apply elem_of_dom in Hr. by apply is_fresh in Hr. }
  destruct params as [r'|]; [destruct (h !! r') as [d|]; [case_bool_decide|]|];
    cbn [snd]; by rewrite ?lookup_insert_ne.
Qed.

Lemma translate_unfold self k l params count dflt h :
  Translator.translate self k l params count dflt h
  = match Translator.translate_loop self k
            (Translator.locales_to_try self (Translator.locale_or_default self l))
            (fst (Translator.params_or_new params h)) count
            (snd (Translator.params_or_new params h)) with
    | Some r => r
    | None => (Returns (default k dflt), snd (Translator.params_or_new params h))
    end.
Proof.
  unfold Translator.translate.
  destruct (Translator.params_or_new params h) as [p h1]. cbn [fst snd].
  destruct (Translator.translate_loop _ _ _ _ _ _); [done|]. by destruct dflt.
Qed.

Lemma resolve_frame self c tr p count h r :
  r ≠ p → snd (Translator.resolve self c tr p count h) !! r = h !! r.
Proof.
  intros Hr. unfold Translator.resolve.
  destruct count as [n|], (plural_forms tr); cbn [snd]; [done| |done|done].
  by rewrite lookup_insert_ne.
Qed.

Lemma resolve_no_count self c tr p h :
  snd (Translator.resolve self c tr p None h) = h.
Proof. done. Qed.

Lemma resolve_no_plural self c tr p count h :
  plural_forms tr = [] → snd (Translator.resolve self c tr p count h) = h.
Proof. intros Hpf. unfold Translator.resolve. rewrite Hpf. by destruct count. Qed.

Lemma resolve_plural self c tr p n h :
  plural_forms tr ≠ [] →
  Translator.resolve self c tr p (Some n) h
  = (Translator._interpolate
       (Translator.plural_text tr (Translator._get_plural_form self c n))
       (<[u "count" := PInt n]> (default ∅ (h !! p))),
     <[p := <[u "count" := PInt n]> (default ∅ (h !! p))]> h).
Proof. intros Hpf. unfold Translator.resolve. by destruct (plural_forms tr). Qed.

Lemma translate_loop_frame self k cands p count h res r :
  Translator.translate_loop self k cands p count h = Some res →
  r ≠ p → snd res !! r = h !! r.
Proof.
  intros Hloop Hr. induction cands as [|c cands IH]; [done|].
  cbn [Translator.translate_loop] in Hloop.
  destruct (TranslationStore.get_translation _ c k) as [tr|]; [|by apply IH].
  injection Hloop as <-. by apply resolve_frame.
Qed.

Lemma translate_loop_no_count self k cands p h res :
  Translator.translate_loop self k cands p None h = Some res → snd res = h.
Proof.
  intros Hloop. induction cands as [|c cands IH]; [done|].
  cbn [Translator.translate_loop] in Hloop.
  destruct (TranslationStore.get_translation _ c k) as [tr|]; [|by apply IH].
  by injection Hloop as <-.
Qed.

End TranslateFacts.

Section TranslateTheorems.

Context `{PyBuiltins}.

(** C2. With [L] the locale the call asks for ([locale], or
    [default_locale] when it is absent or empty), [translate] tries the
    candidates [[L] + fallback_chain.get(L, []) + [default_locale]] in
    order and resolves with the first that has the key, whatever the later
    ones hold. With default_locale "en-US", the chain en-GB -> [en-US]
    and "welcome" present only under en-US, translate("welcome",
    locale="en-GB") is the en-US text. *)
Theorem translate_first_candidate :
  (∀ (self : Translator.t) (k : pystr) (l : option pystr)
     (params : option positive) (count : option Z) (dflt : option pystr)
     (h : heap) (pre post : list pystr) (c : pystr) (tr : Translation),
     let L := Translator.locale_or_default self l in
     [L] ++ default [] (Translator.fallback_chain self !! L)
         ++ [Translator.default_locale self] = pre ++ c :: post →
     (∀ c', c' ∈ pre →
        TranslationStore.get_translation (Translator.store self) c' k = None) →
     TranslationStore.get_translation (Translator.store self) c k = Some tr →
     Translator.translate self k l params count dflt h
     = Translator.resolve self c tr
         (fst (Translator.params_or_new params h)) count
         (snd (Translator.params_or_new params h)))
  ∧ (∀ (self : Translator.t) (L : pystr),
       L ≠ [] → Translator.locale_or_default self (Some L) = L)
  ∧ (∀ (self : Translator.t),
       Translator.locale_or_default self None = Translator.default_locale self)
  ∧ Translator.default_locale example_translator = u "en-US"
  ∧ Translator.fallback_chain example_translator !! u "en-GB" = Some [u "en-US"]
  ∧ TranslationStore.get_translation (Translator.store example_translator)
      (u "en-GB") (u "welcome") = None
  ∧ fst (Translator.translate example_translator (u "welcome")
           (Some (u "en-GB")) None None None ∅)
    = Returns (u "Welcome to BlackRoad").
Proof.
  split; [|split; [|split; [|repeat split; vm_compute; reflexivity]]].
  - intros self k l params count dflt h pre post c tr L Hcands Hpre Hc.
    rewrite translate_unfold. unfold Translator.locales_to_try.
    fold L. rewrite Hcands.
    by rewrite (translate_loop_first self k pre c post tr).
  - intros self [|a L] HL; done.
  - done.
Qed.

End TranslateTheorems.

Section PluralTheorems.

Context `{PyBuiltins}.

(** C3. When the first candidate that has the key holds a translation
    with plural forms and a count is supplied, the category is given by
    the [plural_rule] of that candidate's locale when it has one and by
    the default rule (0 -> zero, 1 -> one, else other) otherwise; the text
    is the plural form of that category, else the form "other", else the
    translation's value; and the text is interpolated with the parameters
    extended by "count". With items.one = "{{count}} item" and
    items.other = "{{count}} items": 1 gives "1 item", 5 gives "5 items",
    and 0, there being no "zero" form, gives "0 items". *)
Theorem translate_plural_selection :
  (∀ (self : Translator.t) (k : pystr) (l : option pystr)
     (params : option positive) (n : Z) (dflt : option pystr)
     (h : heap) (pre post : list pystr) (c : pystr) (tr : Translation),
     let L := Translator.locale_or_default self l in
     [L] ++ default [] (Translator.fallback_chain self !! L)
         ++ [Translator.default_locale self] = pre ++ c :: post →
     (∀ c', c' ∈ pre →
        TranslationStore.get_translation (Translator.store self) c' k = None) →
     TranslationStore.get_translation (Translator.store self) c k = Some tr →
     plural_forms tr ≠ [] →
     let category :=
       match TranslationStore.get_locale (Translator.store self) c ≫= plural_rule with
       | Some rule => rule n
       | None => if (n =? 0)%Z then ZERO else if (n =? 1)%Z then ONE else OTHER
       end in
     let text :=
       match dict_get (plural_forms tr) (PluralForm_value category) with
       | Some v => v
       | None =>
           match dict_get (plural_forms tr) (u "other") with
           | Some v => v
           | None => value tr
           end
       end in
     fst (Translator.translate self k l params (Some n) dflt h)
     = Translator._interpolate text
         (<[u "count" := PInt n]> (params_content params h)))
  ∧ fst (Translator.translate example_translator (u "items") None None (Some 1%Z) None ∅)
    = Returns (u "1 item")
  ∧ fst (Translator.translate example_translator (u "items") None None (Some 5%Z) None ∅)
    = Returns (u "5 items")
  ∧ fst (Translator.translate example_translator (u "items") None None (Some 0%Z) None ∅)
    = Returns (u "0 items").
Proof.
  split; [|repeat split; vm_compute; reflexivity].
  intros self k l params n dflt h pre post c tr L Hcands Hpre Hc Hpf category text.
  rewrite translate_unfold. unfold Translator.locales_to_try. fold L.
  rewrite Hcands, (translate_loop_first self k pre c post tr) by done.
  rewrite resolve_plural by done. cbn [fst].
  by rewrite params_or_new_content.
Qed.

(** C4. When no candidate locale has the key, [translate] returns the
    [default] that was passed, or the key itself when none was; it returns
    normally, and leaves every dictionary of the caller as it was. *)
Theorem translate_missing_key :
  (∀ (self : Translator.t) (k : pystr) (l : option pystr)
     (params : option positive) (count : option Z) (dflt : option pystr)
     (h : heap),
     let L := Translator.locale_or_default self l in
     (∀ c, c ∈ [L] ++ default [] (Translator.fallback_chain self !! L)
                 ++ [Translator.default_locale self] →
        TranslationStore.get_translation (Translator.store self) c k = None) →
     fst (Translator.translate self k l params count dflt h)
     = Returns match dflt with
               | Some d => d
               | None => k
               end
     ∧ ∀ r, is_Some (h !! r) →
         snd (Translator.translate self k l params count dflt h) !! r = h !! r)
  ∧ fst (Translator.translate example_translator (u "missing.key")
           None None None None ∅)
    = Returns (u "missing.key")
  ∧ fst (Translator.translate example_translator (u "missing.key")
           (Some (u "xx-XX")) None (Some 3%Z) (Some (u "n/a")) ∅)
    = Returns (u "n/a").
Proof.
  split; [|repeat split; vm_compute; reflexivity].
  intros self k l params count dflt h L Hnone.
  rewrite translate_unfold. unfold Translator.locales_to_try. fold L.
  rewrite translate_loop_none by done. cbn [fst snd].
  split; [by destruct dflt|]. intros r Hr. by apply params_or_new_keeps.
Qed.

(** C10 (amended). A call that passes a dictionary [d] that is not empty
    adds "count" to that very dictionary, over any earlier entry, when a
    count is supplied and the translation found has plural forms. The
    caller's dictionary is left as it was when no count is supplied, when
    the translation found has no plural forms, when no candidate has the
    key, and also when [d] is empty: [params or {}] then works on a new
    dictionary. *)
Theorem translate_params_effect :
  ∀ (self : Translator.t) (k : pystr) (l : option pystr) (r : positive)
    (d : gmap pystr pyval) (count : option Z) (dflt : option pystr) (h : heap),
    h !! r = Some d →
    let L := Translator.locale_or_default self l in
    let candidates :=
      [L] ++ default [] (Translator.fallback_chain self !! L)
          ++ [Translator.default_locale self] in
    let first_hit (c : pystr) (tr : Translation) :=
      ∃ pre post,
        candidates = pre ++ c :: post
        ∧ (∀ c', c' ∈ pre →
             TranslationStore.get_translation (Translator.store self) c' k = None)
        ∧ TranslationStore.get_translation (Translator.store self) c k = Some tr in
    let after := snd (Translator.translate self k l (Some r) count dflt h) !! r in
    (∀ n c tr,
       d ≠ ∅ → count = Some n → first_hit c tr → plural_forms tr ≠ [] →
       after = Some (<[u "count" := PInt n]> d))
    ∧ (count = None → after = Some d)
    ∧ (∀ c tr, first_hit c tr → plural_forms tr = [] → after = Some d)
    ∧ ((∀ c, c ∈ candidates →
          TranslationStore.get_translation (Translator.store self) c k = None) →
       after = Some d)
    ∧ (d = ∅ → after = Some d).
Proof.
  intros self k l r d count dflt h Hr L candidates first_hit after.
  subst after. rewrite translate_unfold. unfold Translator.locales_to_try.
  fold L. fold candidates.
  assert (Hkeep : snd (Translator.params_or_new (Some r) h) !! r = Some d)
    by (rewrite params_or_new_keeps; eauto).
  split; [|split; [|split; [|split]]].
  - intros n c tr Hd -> (pre & post & Hcands & Hpre & Hc) Hpf.
    rewrite Hcands, (translate_loop_first self k pre c post tr) by done.
    unfold Translator.params_or_new. rewrite Hr.
    rewrite bool_decide_eq_false_2 by done. cbn [fst snd].
    rewrite resolve_plural by done. cbn [snd].
    by rewrite lookup_insert_eq, Hr.
  - intros ->.
    destruct (Translator.translate_loop _ _ _ _ _ _) as [res|] eqn:Hloop; [|done].
    by rewrite (translate_loop_no_count _ _ _ _ _ _ Hloop).
  - intros c tr (pre & post & Hcands & Hpre & Hc) Hpf.
    rewrite Hcands, (translate_loop_first self k pre c post tr) by done.
    by rewrite resolve_no_plural.
  - intros Hnone. by rewrite translate_loop_none.
  - intros ->.
    destruct (Translator.translate_loop _ _ _ _ _ _) as [res|] eqn:Hloop; [|done].
    rewrite (translate_loop_frame _ _ _ _ _ _ _ r Hloop); [done|].
    unfold Translator.params_or_new. rewrite Hr.
    rewrite bool_decide_eq_true_2 by done. cbn [fst].
    intros Heq. assert (r ∈ dom h) as Hdom by (apply elem_of_dom; eauto).
    rewrite Heq in Hdom. by apply is_fresh in Hdom.
Qed.

End PluralTheorems.

(** ** TranslationStore.load_json *)

Section LoadJsonFacts.

Context `{PyBuiltins}.

Implicit Types (self : TranslationStore.t) (l fk prefix : pystr).
Implicit Types (d data : list (pystr * pyval)).

Lemma loaded_app self count ts1 ts2 :
  loaded self count (ts1 ++ ts2)
  = loaded (fold_left TranslationStore.add_translation ts1 self)
      (count + length ts1) ts2.
Proof.
  unfold loaded. rewrite length_app, fold_left_app. f_equal. lia.
Qed.

(** The nested loop of [load_entry] is the loop of [load_json]. *)
Lemma load_entry_dict l fk d self :
  TranslationStore.load_entry l fk (PDict d) self
  = if TranslationStore.is_plural_bundle d
    then (1%nat, TranslationStore.add_translation self
                   (TranslationStore.plural_translation l fk d))
    else TranslationStore.load_items l d fk 0 self.
Proof.
  cbn [TranslationStore.load_entry].
  destruct (TranslationStore.is_plural_bundle d); [done|].
  generalize 0%nat as count. revert self.
  induction d as [|[k v] d IH]; intros self count; [done|].
  cbn [TranslationStore.load_items].
  destruct (TranslationStore.load_entry l (TranslationStore.full_key fk k) v self)
    as [n self'].
  apply IH.
Qed.

Lemma flatten_members l fk d :
  (fix members (items : list (pystr * pyval)) : list Translation :=
     match items with
     | [] => []
     | (k, v') :: rest =>
         leaf_translations l (TranslationStore.full_key fk k) v' ++ members rest
     end) d
  = flatten l fk d.
Proof. induction d as [|[k v] d IH]; [done|]. cbn [flatten]. by rewrite IH. Qed.

Lemma load_items_flatten l d prefix count self :
  Forall (λ kv, ∀ fk self',
            TranslationStore.load_entry l fk (snd kv) self'
            = loaded self' 0 (leaf_translations l fk (snd kv))) d →
  TranslationStore.load_items l d prefix count self
  = loaded self count (flatten l prefix d).
Proof.
  intros Hd. revert count self.
  induction Hd as [|[k v] d Hv _ IH]; intros count self.
  - unfold loaded. cbn. f_equal. lia.
  - cbn [TranslationStore.load_items flatten]. cbn [snd] in Hv.
    rewrite Hv, loaded_app. unfold loaded at 1. cbn [Nat.add].
    by rewrite IH.
Qed.

Lemma load_entry_leaves v :
  ∀ l fk self,
    TranslationStore.load_entry l fk v self
    = loaded self 0 (leaf_translations l fk v).
Proof.
  induction v as [| | | | |vs _|d IH] using pyval_nested_ind; intros l fk self;
    try reflexivity.
  rewrite load_entry_dict. cbn [leaf_translations].
  destruct (TranslationStore.is_plural_bundle d); [reflexivity|].
  rewrite flatten_members. apply load_items_flatten.
  eapply Forall_impl; [exact IH|]. intros kv Hkv fk' self'. apply Hkv.
Qed.

Lemma load_json_flatten self l data prefix :
  TranslationStore.load_json self l data prefix
  = (length (flatten l prefix data),
     fold_left TranslationStore.add_translation (flatten l prefix data) self).
Proof.
  unfold TranslationStore.load_json. rewrite load_items_flatten; [done|].
  apply Forall_forall. intros kv _ fk self'. apply load_entry_leaves.
Qed.

(** A translation that was added is the one found, until another one is
    added under the same locale and key. *)
Lemma get_add_translation self tr :
  TranslationStore.get_translation (TranslationStore.add_translation self tr)
    (locale tr) (key tr) = Some tr.
Proof.
  unfold TranslationStore.get_translation, TranslationStore.add_translation.
  cbn [TranslationStore.translations].
  by rewrite !lookup_insert_eq.
Qed.

End LoadJsonFacts.

Section LoadJsonTheorems.

Context `{PyBuiltins}.

(** C8. [load_json] adds, in order, the translations its input flattens
    to, and returns their number: an entry that is not a mapping gives one
    translation whose value is [str] of it; a mapping with a member "one"
    or "other" gives one translation whose value is the member "other"
    (the empty string without one) and whose plural forms are the mapping
    itself; any other mapping gives the translations of its members, the
    prefix extended by its key and a dot. Loading {"a": {"b": "x"}} adds
    exactly the translation of key "a.b" and value "x", and returns 1. *)
Theorem load_json_flattens :
  (∀ (self : TranslationStore.t) (l : pystr) (data : list (pystr * pyval))
     (prefix : pystr),
     TranslationStore.load_json self l data prefix
     = (length (flatten l prefix data),
        fold_left TranslationStore.add_translation (flatten l prefix data) self))
  ∧ (∀ (l prefix k : pystr) (v : pyval) (rest : list (pystr * pyval)),
       flatten l prefix [] = []
       ∧ flatten l prefix ((k, v) :: rest)
         = leaf_translations l (TranslationStore.full_key prefix k) v
             ++ flatten l prefix rest)
  ∧ (∀ (l fk : pystr) (v : pyval),
       (∀ d, v ≠ PDict d) →
       leaf_translations l fk v
       = [ {| key := fk; locale := l; value := PStr (py_str v);
              plural_forms := []; context := []; metadata := [] |} ])
  ∧ (∀ (l fk : pystr) (d : list (pystr * pyval)),
       dict_in (u "one") d = true ∨ dict_in (u "other") d = true →
       leaf_translations l fk (PDict d)
       = [ {| key := fk; locale := l;
              value := default (PStr []) (dict_get d (u "other"));
              plural_forms := d; context := []; metadata := [] |} ])
  ∧ (∀ (l fk : pystr) (d : list (pystr * pyval)),
       dict_in (u "one") d = false → dict_in (u "other") d = false →
       leaf_translations l fk (PDict d) = flatten l fk d)
  ∧ (∀ (prefix k : pystr),
       TranslationStore.full_key [] k = k
       ∧ (prefix ≠ [] → TranslationStore.full_key prefix k = prefix ++ u "." ++ k))
  ∧ (∀ (self : TranslationStore.t) (l : pystr),
       let tr := {| key := u "a.b"; locale := l; value := PStr (u "x");
                    plural_forms := []; context := []; metadata := [] |} in
       flatten l [] [ (u "a", PDict [ (u "b", PStr (u "x")) ]) ] = [tr]
       ∧ TranslationStore.load_json self l
           [ (u "a", PDict [ (u "b", PStr (u "x")) ]) ] []
         = (1%nat, TranslationStore.add_translation self tr)
       ∧ TranslationStore.get_translation
           (snd (TranslationStore.load_json self l
                   [ (u "a", PDict [ (u "b", PStr (u "x")) ]) ] []))
           l (u "a.b") = Some tr).
Proof.
  split; [apply load_json_flatten|].
  split; [done|].
  split.
  { intros l fk v Hv. destruct v; try reflexivity. by destruct (Hv d). }
  split.
  { intros l fk d Hd. cbn [leaf_translations].
    unfold TranslationStore.is_plural_bundle.
    replace (dict_in (u "one") d || dict_in (u "other") d) with true
      by (symmetry; apply orb_true_iff; done).
    unfold TranslationStore.plural_translation.
    by destruct (dict_get d (u "other")). }
  split.
  { intros l fk d Hone Hother. cbn [leaf_translations].
    unfold TranslationStore.is_plural_bundle. rewrite Hone, Hother.
    apply flatten_members. }
  split.
  { intros prefix k. split; [done|]. by destruct prefix. }
  intros self l tr.
  assert (Hflat : flatten l [] [ (u "a", PDict [ (u "b", PStr (u "x")) ]) ] = [tr])
    by reflexivity.
  split; [exact Hflat|].
  rewrite load_json_flatten, Hflat. cbn [length fold_left snd].
  split; [done|].
  apply (get_add_translation self tr).
Qed.

End LoadJsonTheorems.

(** ** Translator._interpolate *)

Section InterpolateFacts.

Context `{PyBuiltins}.

Implicit Types (s x rest name lit w : pystr) (params : gmap pystr pyval).

Lemma span_word_spec s :
  s = fst (Translator.span_word s) ++ snd (Translator.span_word s)
  ∧ Forall (λ c, Translator.is_word c = true) (fst (Translator.span_word s))
  ∧ match snd (Translator.span_word s) with
    | [] => True
    | c :: _ => Translator.is_word c = false
    end.
Proof.
  induction s as [|c s (IH1 & IH2 & IH3)]; [by repeat split|].
  cbn [Translator.span_word].
  destruct (Translator.is_word c) eqn:Hc.
  - destruct (Translator.span_word s) as [w r]. cbn [fst snd] in *.
    split; [by rewrite IH1 at 1|]. split; [by constructor|done].
  - cbn [fst snd]. by repeat split.
Qed.

Lemma span_word_app w rest :
  Forall (λ c, Translator.is_word c = true) w →
  match rest with
  | [] => True
  | c :: _ => Translator.is_word c = false
  end →
  Translator.span_word (w ++ rest) = (w, rest).
Proof.
  intros Hw Hrest. induction Hw as [|c w Hc _ IH]; cbn [app].
  - destruct rest as [|c rest]; [done|]. cbn [Translator.span_word].
    by rewrite Hrest.
  - cbn [Translator.span_word]. by rewrite Hc, IH.
Qed.

Lemma is_identifier_spec name :
  is_identifier name = true
  ↔ name ≠ [] ∧ Forall (λ c, Translator.is_word c = true) name.
Proof.
  unfold is_identifier. destruct name as [|c w].
  - split; [done|]. by intros [? _].
  - rewrite forallb_forall, Forall_forall. split.
    + intros Hall. split; [done|]. intros x Hx. apply Hall.
      by apply list_elem_of_In.
    + intros [_ Hall] x Hx. apply Hall. by apply list_elem_of_In.
Qed.

(** At a placeholder the pattern matches, with the name as its group. *)
Lemma match_placeholder_hit name rest :
  is_identifier name = true →
  Translator.match_placeholder (Translator.placeholder name ++ rest)
  = Some (name, rest).
Proof.
  intros Hname. apply is_identifier_spec in Hname as [Hne Hw].
  unfold Translator.match_placeholder, Translator.placeholder.
  rewrite <- !app_assoc. rewrite is_prefix_app.
  rewrite (drop_app_length' (u "{{")) by done.
  rewrite span_word_app by done.
  destruct name as [|c w]; [done|].
  rewrite is_prefix_app. by rewrite (drop_app_length' (u "}}")).
Qed.

(** Where the pattern matches, the text starts with a placeholder. *)
Lemma match_placeholder_inv s name rest :
  Translator.match_placeholder s = Some (name, rest) →
  s = Translator.placeholder name ++ rest ∧ is_identifier name = true.
Proof.
  unfold Translator.match_placeholder. intros Hm.
  destruct (is_prefix (u "{{") s) eqn:Hopen; [|done].
  apply is_prefix_true in Hopen.
  pose proof (span_word_spec (drop 2 s)) as (Hsplit & Hw & _).
  destruct (Translator.span_word (drop 2 s)) as [[|c w] r]; [done|].
  destruct (is_prefix (u "}}") r) eqn:Hclose; [|done].
  apply is_prefix_true in Hclose. injection Hm as <- <-.
  cbn [fst snd] in *. split.
  - rewrite Hopen at 1. change (length (u "{{")) with 2%nat.
    rewrite Hsplit at 1. rewrite Hclose at 1.
    unfold Translator.placeholder. by rewrite <- !app_assoc.
  - apply is_identifier_spec. by split.
Qed.

Lemma match_placeholder_mono x rest name r :
  Translator.match_placeholder x = Some (name, r) →
  Translator.match_placeholder (x ++ rest) = Some (name, r ++ rest).
Proof.
  intros Hm. apply match_placeholder_inv in Hm as [-> Hname].
  rewrite <- app_assoc. by apply match_placeholder_hit.
Qed.

(** A stretch in which the pattern does not match at the head does not
    match there either when a placeholder follows it. *)
Lemma match_placeholder_app_none x rest :
  x ≠ [] → Translator.match_placeholder x = None → placeholder_or_end rest →
  Translator.match_placeholder (x ++ rest) = None.
Proof.
  intros Hx Hm [-> | (name & rest' & Hname & ->)]; [by rewrite app_nil_r|].
  apply is_identifier_spec in Hname as [Hne Hw].
  destruct name as [|n0 name]; [done|]. apply Forall_cons in Hw as [Hn0 Hw].
  unfold Translator.placeholder in *.
  change (u "{{") with [123; 123] in *. change (u "}}") with [125; 125] in *.
  cbn [app]. unfold Translator.match_placeholder in *.
  change (u "{{") with [123; 123] in *. change (u "}}") with [125; 125] in *.
  destruct x as [|a [|b x1]]; [done| |].
  - (* one character, possibly the first brace of "{{{name}}" *)
    cbn [app is_prefix drop]. destruct (123 =? a); [|done].
    cbn [andb Translator.span_word N.eqb Pos.eqb].
    by change (Translator.is_word 123) with false.
  - cbn [app is_prefix drop] in *. rewrite ?drop_0 in *.
    destruct ((123 =? a) && ((123 =? b) && true)); [|done].
    pose proof (span_word_spec x1) as (Hsplit & Hw1 & Hr).
    destruct (Translator.span_word x1) as [w r]. cbn [fst snd] in *.
    rewrite Hsplit, <- app_assoc.
    rewrite span_word_app; [|done|].
    + destruct w as [|c w]; [done|].
      destruct r as [|x [|y r]]; cbn [app is_prefix] in *.
      * by rewrite andb_false_r.
      * destruct (125 =? x); [|done]. by rewrite andb_false_r.
      * destruct ((125 =? x) && ((125 =? y) && true)); done.
    + destruct r as [|x r]; [|done]. cbn [app]. done.
Qed.

(** The pattern matches somewhere in a text exactly when the text holds
    a placeholder. *)
Lemma has_placeholder_spec s :
  has_placeholder s = true
  ↔ ∃ pre name post,
      is_identifier name = true ∧ s = pre ++ Translator.placeholder name ++ post.
Proof.
  split.
  - induction s as [|c s IH]; [done|]. cbn [has_placeholder].
    destruct (Translator.match_placeholder (c :: s)) as [[name rest]|] eqn:Hm.
    + intros _. apply match_placeholder_inv in Hm as [Hs Hname].
      by exists [], name, rest.
    + intros Hs. destruct (IH Hs) as (pre & name & post & Hname & ->).
      by exists (c :: pre), name, post.
  - intros (pre & name & post & Hname & ->).
    induction pre as [|c pre IH].
    + cbn [app]. pose proof (match_placeholder_hit name post Hname) as Hm.
      change (Translator.placeholder name ++ post)
        with (123 :: (123 :: name ++ u "}}") ++ post) in *.
      cbn [has_placeholder]. by rewrite Hm.
    + cbn [app has_placeholder].
      by destruct (Translator.match_placeholder _).
Qed.

Lemma sub_go_skip params x rest :
  Translator.sub_go params (length x) (x ++ rest) = Translator.sub_go params 0 rest.
Proof. induction x as [|c x IH]; simpl; done. Qed.

Lemma sub_go_cons params c s :
  Translator.sub_go params 0 (c :: s)
  = match Translator.match_placeholder (c :: s) with
    | Some (name, _) =>
        Translator.replace_match params name
          ++ Translator.sub_go params (length (Translator.placeholder name) - 1) s
    | None => c :: Translator.sub_go params 0 s
    end.
Proof. reflexivity. Qed.

(** A placeholder at the head is replaced, and the scan resumes behind
    it. *)
Lemma sub_hit params name rest :
  is_identifier name = true →
  Translator.sub params (Translator.placeholder name ++ rest)
  = Translator.replace_match params name ++ Translator.sub params rest.
Proof.
  intros Hname. unfold Translator.sub.
  pose proof (match_placeholder_hit name rest Hname) as Hm.
  assert (Hshape : Translator.placeholder name ++ rest
                   = 123 :: (123 :: name ++ u "}}") ++ rest).
  { reflexivity. }
  rewrite Hshape in *. rewrite sub_go_cons, Hm. f_equal.
  rewrite <- (sub_go_skip params (123 :: name ++ u "}}") rest). f_equal.
Qed.

Lemma sub_miss params c s :
  Translator.match_placeholder (c :: s) = None →
  Translator.sub params (c :: s) = c :: Translator.sub params s.
Proof. intros Hm. unfold Translator.sub. by rewrite sub_go_cons, Hm. Qed.

(** A stretch without placeholder is copied. *)
Lemma sub_literal params lit rest :
  has_placeholder lit = false → placeholder_or_end rest →
  Translator.sub params (lit ++ rest) = lit ++ Translator.sub params rest.
Proof.
  intros Hlit Hrest. induction lit as [|c lit IH]; [done|].
  cbn [has_placeholder] in Hlit.
  destruct (Translator.match_placeholder (c :: lit)) eqn:Hm; [done|].
  cbn [app]. rewrite sub_miss.
  - by rewrite IH.
  - change (c :: lit ++ rest) with ((c :: lit) ++ rest).
    by apply match_placeholder_app_none.
Qed.

Lemma sub_template params segments last :
  well_cut segments last →
  Translator.sub params (render_template segments last)
  = fill_template params segments last.
Proof.
  intros [Hsegs Hlast]. unfold render_template, fill_template.
  induction Hsegs as [|[lit name] segments [Hlit Hname] _ IH]; cbn [flat_map app].
  - rewrite <- (app_nil_r last) at 1. rewrite sub_literal; [|done|by left].
    by rewrite app_nil_r.
  - cbn [fst snd] in *. rewrite <- !app_assoc.
    rewrite sub_literal; [|done|right; eauto].
    by rewrite sub_hit, IH.
Qed.

Lemma template_exists_bounded (n : nat) s :
  (length s < n)%nat →
  ∃ segments last, s = render_template segments last ∧ well_cut segments last.
Proof.
  revert s. induction n as [|n IH]; intros s Hlen; [lia|].
  destruct s as [|c s].
  { exists [], []. split; [done|]. by split. }
  destruct (Translator.match_placeholder (c :: s)) as [[name rest]|] eqn:Hm.
  - apply match_placeholder_inv in Hm as [Hs Hname].
    assert (length rest < n)%nat as Hrest.
    { rewrite Hs in Hlen. unfold Translator.placeholder in Hlen.
      change (u "{{") with [123; 123] in Hlen.
      rewrite !length_app in Hlen. cbn [length] in Hlen. lia. }
    destruct (IH rest Hrest) as (segs & last & -> & Hsegs & Hlast).
    exists (([], name) :: segs), last. split.
    + rewrite Hs. unfold render_template. cbn [flat_map fst snd app].
      by rewrite <- !app_assoc.
    + split; [|done]. constructor; [by split|done].
  - assert (length s < n)%nat as Hs' by (cbn [length] in Hlen; lia).
    destruct (IH s Hs') as (segs & last & Hs & Hsegs & Hlast).
    destruct segs as [|[lit name] segs].
    + exists [], (c :: last). cbn in Hs. subst s. split; [done|].
      split; [done|]. cbn [has_placeholder]. by rewrite Hm.
    + exists ((c :: lit, name) :: segs), last. split.
      * rewrite Hs. unfold render_template. cbn [flat_map fst snd].
        by rewrite <- !app_assoc.
      * apply Forall_cons in Hsegs as [[Hlit Hname] Hsegs].
        split; [|done]. constructor; [|done]. cbn [fst snd] in *.
        split; [|done]. cbn [has_placeholder].
        destruct (Translator.match_placeholder (c :: lit)) as [[nm r]|] eqn:Hm';
          [|done].
        apply (match_placeholder_mono _
                 (Translator.placeholder name
                    ++ flat_map (λ seg, fst seg ++ Translator.placeholder (snd seg)) segs
                    ++ last)) in Hm'.
        rewrite Hs in Hm. unfold render_template in Hm.
        cbn [flat_map fst snd] in Hm. rewrite <- !app_assoc in Hm.
        cbn [app] in Hm'. congruence.
Qed.

(** Every text is cut in exactly this way by the places where the pattern
    matches. *)
Lemma template_exists s :
  ∃ segments last, s = render_template segments last ∧ well_cut segments last.
Proof. apply (template_exists_bounded (S (length s))). lia. Qed.

End InterpolateFacts.

Section InterpolateTheorems.

Context `{PyBuiltins}.

(** C5. Interpolation cuts the text at its placeholders [{{name}}] and
    replaces each by [str] of the parameter of that name, or leaves it as
    it is written when there is no such parameter; everything between the
    placeholders is copied. It is one pass: what was inserted is not
    scanned, so a value that holds "{{" or a whole placeholder stays as it
    is. Every text can be cut this way, into stretches that hold no
    placeholder and names made of word characters. *)
Theorem interpolate_single_pass :
  (∀ (params : gmap pystr pyval) (segments : list (pystr * pystr)) (last : pystr),
     well_cut segments last →
     Translator._interpolate (PStr (render_template segments last)) params
     = Returns (fill_template params segments last))
  ∧ (∀ (text : pystr),
       ∃ segments last,
         text = render_template segments last ∧ well_cut segments last)
  ∧ (∀ (s : pystr),
       has_placeholder s = true
       ↔ ∃ pre name post,
           is_identifier name = true
           ∧ s = pre ++ Translator.placeholder name ++ post)
  ∧ (∀ (name : pystr),
       is_identifier name = true
       ↔ name ≠ [] ∧ Forall (λ c, Translator.is_word c = true) name)
  ∧ (∀ (params : gmap pystr pyval) (name : pystr) (v : pyval),
       params !! name = Some v →
       Translator.replace_match params name = py_str v)
  ∧ (∀ (params : gmap pystr pyval) (name : pystr),
       params !! name = None →
       Translator.replace_match params name = u "{{" ++ name ++ u "}}")
  ∧ Translator._interpolate (PStr (u "{{a}} and {{b}}"))
      (<[u "a" := PStr (u "{{b}}")]> (<[u "b" := PStr (u "x")]> ∅))
    = Returns (u "{{b}} and x")
  ∧ Translator._interpolate (PStr (u "{{a}}b}}"))
      (<[u "a" := PStr (u "{{")]> (<[u "b" := PStr (u "x")]> ∅))
    = Returns (u "{{b}}")
  ∧ Translator._interpolate (PStr (u "Hello, {{name}}! {{n}} new"))
      (<[u "n" := PInt 3]> ∅)
    = Returns (u "Hello, {{name}}! 3 new").
Proof.
  split; [|split; [|split; [|split; [|split; [|split;
    [|repeat split; vm_compute; reflexivity]]]]]].
  - intros params segments last Hcut. cbn [Translator._interpolate].
    by rewrite sub_template.
  - apply template_exists.
  - apply has_placeholder_spec.
  - apply is_identifier_spec.
  - intros params name v Hv. unfold Translator.replace_match. by rewrite Hv.
  - intros params name Hv. unfold Translator.replace_match. by rewrite Hv.
Qed.

End InterpolateTheorems.

(** ** Repeated replacement and the scan by position *)

Section TokenScanFacts.

Implicit Types (table : list (pystr * pystr)) (s w rest k v r : pystr).
Implicit Types (y : N).

Lemma scan_skip table w rest :
  scan_tokens table (length w) (w ++ rest) = scan_tokens table 0 rest.
Proof. induction w as [|c w IH]; simpl; done. Qed.

Lemma scan_hit table s k v :
  find (λ kv, is_prefix (fst kv) s) table = Some (k, v) → k ≠ [] →
  scan_tokens table 0 s = v ++ scan_tokens table 0 (drop (length k) s).
Proof.
  intros Hfind Hk. pose proof Hfind as Hpre.
  apply find_some in Hpre as [_ Hpre]. cbn [fst] in Hpre.
  apply is_prefix_true in Hpre.
  destruct k as [|c k]; [done|]. set (rest := drop (length (c :: k)) s) in *.
  rewrite Hpre in Hfind |- *. cbn [app scan_tokens].
  change (c :: k ++ rest) with ((c :: k) ++ rest) in Hfind.
  cbn [app] in Hfind. rewrite Hfind. cbn [fst snd length]. f_equal.
  replace (S (length k) - 1)%nat with (length k) by lia.
  apply scan_skip.
Qed.

Lemma scan_miss table c s :
  find (λ kv, is_prefix (fst kv) (c :: s)) table = None →
  scan_tokens table 0 (c :: s) = c :: scan_tokens table 0 s.
Proof. intros Hfind. cbn [scan_tokens]. by rewrite Hfind. Qed.

Lemma scan_no_table s : scan_tokens [] 0 s = s.
Proof. induction s as [|c s IH]; [done|]. cbn. by rewrite IH. Qed.

Lemma find_none_all {A} (P : A → bool) (l : list A) :
  Forall (λ a, P a = false) l → find P l = None.
Proof. induction 1 as [|a l Ha _ IH]; [done|]. cbn. by rewrite Ha. Qed.

Lemma find_agree {A} (P Q : A → bool) (l : list A) :
  Forall (λ a, P a = Q a) l → find P l = find Q l.
Proof. induction 1 as [|a l Ha _ IH]; [done|]. cbn. by rewrite Ha, IH. Qed.

Lemma is_prefix_repeat_weaken (c : N) (a : nat) s :
  is_prefix (repeat c (S a)) s = true → is_prefix (repeat c a) s = true.
Proof.
  revert s. induction a as [|a IH]; intros s Hs; [done|].
  destruct s as [|z s]; [done|].
  change (repeat c (S (S a))) with (c :: repeat c (S a)) in Hs.
  change (repeat c (S a)) with (c :: repeat c a).
  cbn [is_prefix] in *. apply andb_true_iff in Hs as [Hz Hs].
  rewrite Hz. cbn [andb]. by apply IH.
Qed.

(** A run too short for the token at its start is too short further on. *)
Lemma not_prefix_shift (c : N) (a : nat) s :
  is_prefix (repeat c (S a)) (c :: s) = false →
  is_prefix (repeat c (S a)) s = false.
Proof.
  intros Hs. destruct (is_prefix (repeat c (S a)) s) eqn:Hs'; [|done].
  apply is_prefix_repeat_weaken in Hs'.
  cbn [repeat is_prefix] in Hs. by rewrite N.eqb_refl, Hs' in Hs.
Qed.

(** A run in which the token of a replacement does not start is copied
    by it. *)
Lemma replace_run_pass (c1 : N) (a : nat) v (c : N) (n : nat) rest :
  is_prefix (repeat c1 (S a)) (repeat c n ++ rest) = false →
  replace (repeat c1 (S a)) v (repeat c n ++ rest)
  = repeat c n ++ replace (repeat c1 (S a)) v rest.
Proof.
  induction n as [|n IH]; intros Hp; [done|].
  cbn [repeat app] in *. rewrite replace_miss by done. f_equal.
  destruct n as [|n]; [done|]. apply IH.
  cbn [repeat app] in *.
  destruct (N.eq_dec c c1) as [->|Hne].
  - by apply not_prefix_shift.
  - by apply is_prefix_head.
Qed.

(** A replacement whose token does not start the text, and whose value
    does not start with [c], does not change whether a run of [c] starts
    the text. *)
Lemma is_prefix_replace (c1 : N) (a : nat) v (c : N) (n : nat) s :
  v ≠ [] → (∀ y r, v = y :: r → y ≠ c) →
  is_prefix (repeat c1 (S a)) s = false →
  is_prefix (repeat c n) (replace (repeat c1 (S a)) v s)
  = is_prefix (repeat c n) s.
Proof.
  intros Hv Hhd. revert s. induction n as [|n IH]; intros s Hp; [done|].
  destruct s as [|x s]; [done|].
  rewrite replace_miss by done. cbn [repeat is_prefix].
  destruct (N.eqb_spec c x) as [<-|]; [|done]. cbn [andb].
  destruct (is_prefix (repeat c1 (S a)) s) eqn:Hs; [|by apply IH].
  destruct (N.eq_dec c c1) as [->|Hne].
  { apply is_prefix_repeat_weaken in Hs.
    cbn [repeat is_prefix] in Hp. by rewrite N.eqb_refl, Hs in Hp. }
  destruct n as [|n]; [done|].
  apply is_prefix_true in Hs. rewrite Hs at 2. rewrite Hs at 1.
  rewrite replace_hit by done.
  destruct v as [|y r]; [done|].
  cbn [repeat app is_prefix].
  destruct (N.eqb_spec c y) as [->|]; [by destruct (Hhd y r eq_refl)|].
  destruct (N.eqb_spec c c1); done.
Qed.

Lemma inert_not_prefix table v y r :
  Forall (λ kv, uniform (fst kv)) table →
  Forall (λ x, Forall (λ kv, x ∉ fst kv) table) v →
  v = y :: r →
  Forall (λ kv, ∀ s, is_prefix (fst kv) (y :: s) = false) table.
Proof.
  intros Hun Hv ->. apply Forall_cons in Hv as [Hy _].
  apply Forall_forall. intros kv Hkv s.
  rewrite Forall_forall in Hun, Hy.
  destruct (Hun kv Hkv) as (c & n & Hk). rewrite Hk.
  apply is_prefix_head. intros ->. apply (Hy kv Hkv). rewrite Hk. left.
Qed.

(** The scan copies a value that has no token character. *)
Lemma scan_inert table v rest :
  Forall (λ kv, uniform (fst kv)) table →
  Forall (λ x, Forall (λ kv, x ∉ fst kv) table) v →
  scan_tokens table 0 (v ++ rest) = v ++ scan_tokens table 0 rest.
Proof.
  intros Hun Hv. induction v as [|y v IH]; [done|].
  cbn [app]. rewrite scan_miss.
  - f_equal. apply IH. by apply Forall_cons in Hv as [_ Hv].
  - apply find_none_all.
    eapply Forall_impl; [exact (inert_not_prefix table _ y v Hun Hv eq_refl)|].
    intros kv Hkv. apply Hkv.
Qed.

(** One more entry in front of the table is one replacement done first. *)
Lemma scan_step (c1 : N) (a : nat) v1 table (n : nat) s :
  Forall (λ kv, uniform (fst kv)) table →
  inert_for table v1 →
  (length s < n)%nat →
  scan_tokens ((repeat c1 (S a), v1) :: table) 0 s
  = scan_tokens table 0 (replace (repeat c1 (S a)) v1 s).
Proof.
  intros Hun [Hv1 Hinert]. revert s.
  assert (Hagree : ∀ s, is_prefix (repeat c1 (S a)) s = false →
    Forall (λ kv, is_prefix (fst kv) (replace (repeat c1 (S a)) v1 s)
                  = is_prefix (fst kv) s) table).
  { intros s Hp. apply Forall_forall. intros kv Hkv.
    rewrite Forall_forall in Hun. destruct (Hun kv Hkv) as (c & b & Hk).
    rewrite Hk. apply is_prefix_replace; [done| |done].
    intros y r ->. apply Forall_cons in Hinert as [Hy _].
    rewrite Forall_forall in Hy. intros ->. apply (Hy kv Hkv).
    rewrite Hk. left. }
  induction n as [|n IH]; intros s Hlen; [lia|].
  destruct s as [|x s]; [done|].
  destruct (is_prefix (repeat c1 (S a)) (x :: s)) eqn:Hp.
  - (* the new token starts here *)
    rewrite (scan_hit _ _ (repeat c1 (S a)) v1);
      [|by cbn [find fst]; rewrite Hp|done].
    apply is_prefix_true in Hp.
    set (rest := drop (length (repeat c1 (S a))) (x :: s)) in *.
    rewrite Hp at 1. rewrite replace_hit by done.
    rewrite scan_inert by done. f_equal. apply IH.
    apply (f_equal length) in Hp. rewrite length_app in Hp.
    cbn [length repeat] in *. lia.
  - destruct (find (λ kv, is_prefix (fst kv) (x :: s)) table)
      as [[k' v']|] eqn:Hfind.
    + (* a token of the table starts here *)
      pose proof Hfind as Hin. apply find_some in Hin as [Hin Hk'].
      apply list_elem_of_In in Hin. cbn [fst] in Hk'.
      pose proof Hun as Hun'. rewrite Forall_forall in Hun'.
      destruct (Hun' _ Hin) as (c & b & Hk). cbn [fst] in Hk. subst k'.
      rewrite (scan_hit _ _ (repeat c (S b)) v');
        [|by cbn [find fst]; rewrite Hp|done].
      rewrite (scan_hit table _ (repeat c (S b)) v'); [| |done].
      * f_equal. apply is_prefix_true in Hk'.
        set (rest := drop (length (repeat c (S b))) (x :: s)) in *.
        rewrite Hk' at 1. rewrite Hk' in Hp.
        rewrite replace_run_pass by done.
        rewrite drop_app_length. apply IH.
        apply (f_equal length) in Hk'. rewrite length_app in Hk'.
        cbn [length repeat] in *. lia.
      * rewrite <- Hfind. apply find_agree.
        eapply Forall_impl; [exact (Hagree _ Hp)|]. done.
    + (* no token starts here *)
      rewrite scan_miss by (by cbn [find fst]; rewrite Hp).
      assert (Hnone : find (λ kv, is_prefix (fst kv)
                                    (replace (repeat c1 (S a)) v1 (x :: s)))
                        table = None).
      { rewrite <- Hfind. apply find_agree.
        eapply Forall_impl; [exact (Hagree _ Hp)|]. done. }
      rewrite replace_miss in Hnone |- * by done.
      rewrite scan_miss by done. f_equal. apply IH. cbn [length] in Hlen. lia.
Qed.

Lemma inert_for_tail kv table v : inert_for (kv :: table) v → inert_for table v.
Proof.
  intros [Hv Hall]. split; [done|].
  eapply Forall_impl; [exact Hall|]. intros x Hx.
  by apply Forall_cons in Hx as [_ Hx].
Qed.

(** Replacing the tokens of a plain table one after the other gives what
    one scan by position gives. *)
Lemma replace_all_scan table s :
  plain_table table →
  Formatter.replace_all table s = scan_tokens table 0 s.
Proof.
  unfold Formatter.replace_all. revert s.
  induction table as [|[k v] table IH]; intros s Hplain.
  - by rewrite scan_no_table.
  - apply Forall_cons in Hplain as [[(c & a & Hk) Hv] Hplain].
    cbn [fst snd] in *. subst k. cbn [fold_left fst snd].
    assert (Hun : Forall (λ kv, uniform (fst kv)) table).
    { eapply Forall_impl; [exact Hplain|]. by intros kv [? _]. }
    rewrite IH.
    + symmetry. apply (scan_step c a v table (S (length s))); [done| |lia].
      by apply inert_for_tail in Hv.
    + eapply Forall_impl; [exact Hplain|]. intros kv [? Hkv].
      split; [done|]. by apply inert_for_tail in Hkv.
Qed.

(** Replacing one character by itself changes nothing. *)
Lemma replace_same (c : N) s : replace [c] [c] s = s.
Proof.
  induction s as [|x s IH]; [done|].
  destruct (N.eq_dec x c) as [->|Hne].
  - change (c :: s) with ([c] ++ s). rewrite replace_hit by done.
    by rewrite IH.
  - rewrite replace_miss by (by apply is_prefix_head). by rewrite IH.
Qed.

End TokenScanFacts.

(** ** Formatter.date and Formatter.time *)

Section DateFacts.

Implicit Types (s k : pystr) (z : Z).

Lemma digits_nonempty (n : N) : digits n ≠ [].
Proof.
  unfold digits. destruct n as [|p]; [done|]. cbn [N.to_uint].
  pose proof (Unsigned.to_uint_nonnil p) as Hp.
  by destruct (Pos.to_uint p).
Qed.

Lemma digits_numeral (n : N) : Forall numeral_char (digits n).
Proof.
  eapply Forall_impl; [apply digits_digits|]. intros c Hc. by left.
Qed.

Lemma sign_numeral (neg : bool) : Forall numeral_char (sign_of neg).
Proof.
  destruct neg; [|constructor].
  constructor; [by right | constructor].
Qed.

Lemma str_int_numeral z : str_int z ≠ [] ∧ Forall numeral_char (str_int z).
Proof.
  unfold str_int. split.
  - intros Heq. apply app_eq_nil in Heq as [_ Heq]. by apply digits_nonempty in Heq.
  - apply Forall_app. split; [apply sign_numeral | apply digits_numeral].
Qed.

Lemma format_0d_numeral (w : nat) z :
  format_0d w z ≠ [] ∧ Forall numeral_char (format_0d w z).
Proof.
  unfold format_0d. split.
  - intros Heq. apply app_eq_nil in Heq as [_ Heq].
    apply app_eq_nil in Heq as [_ Heq]. by apply digits_nonempty in Heq.
  - apply Forall_app. split; [apply sign_numeral|].
    apply Forall_app. split; [|apply digits_numeral].
    apply Forall_forall. intros c Hc. apply list_elem_of_In, repeat_spec in Hc as ->.
    by left.
Qed.

Lemma last_chars_numeral (n : nat) s :
  s ≠ [] ∧ Forall numeral_char s →
  last_chars (S n) s ≠ [] ∧ Forall numeral_char (last_chars (S n) s).
Proof.
  intros [Hne Hs]. unfold last_chars. split; [|by apply Forall_drop].
  intros Heq. apply (f_equal length) in Heq. rewrite length_drop in Heq.
  destruct s; [done|]. cbn [length] in Heq. lia.
Qed.

(** A numeral has none of the letters of a token. *)
Lemma numeral_not_in (c : N) k :
  numeral_char c → Forall (λ x, is_digit x = false ∧ x ≠ 45) k → c ∉ k.
Proof.
  intros Hc Hk Hin. rewrite Forall_forall in Hk.
  destruct (Hk c Hin) as [Hd H45]. destruct Hc; congruence.
Qed.

Lemma numeral_inert table s :
  Forall (λ kv, Forall (λ x, is_digit x = false ∧ x ≠ 45) (fst kv)) table →
  s ≠ [] ∧ Forall numeral_char s → inert_for table s.
Proof.
  intros Htable [Hne Hs]. split; [done|].
  eapply Forall_impl; [exact Hs|]. intros c Hc.
  eapply Forall_impl; [exact Htable|]. intros kv Hkv.
  by apply numeral_not_in.
Qed.

Lemma letters_not_numeral (table : list (pystr * pystr)) :
  forallb (λ kv, forallb (λ x, negb (is_digit x) && negb (x =? 45)) (fst kv)) table
  = true →
  Forall (λ kv, Forall (λ x, is_digit x = false ∧ x ≠ 45) (fst kv)) table.
Proof.
  rewrite forallb_forall, Forall_forall. intros Hall kv Hkv.
  apply list_elem_of_In, Hall in Hkv.
  rewrite forallb_forall in Hkv. apply Forall_forall. intros x Hx.
  apply list_elem_of_In, Hkv, andb_true_iff in Hx as [Hd H45].
  apply negb_true_iff in Hd, H45. split; [done|]. by apply N.eqb_neq.
Qed.

Lemma date_tokens_plain (v : date) : plain_table (Formatter.date_tokens v).
Proof.
  pose proof (letters_not_numeral (Formatter.date_tokens v) eq_refl) as Hletters.
  unfold plain_table.
  constructor; [split; [by exists 89, 3%nat|]|].
  { apply (numeral_inert _ _ Hletters), str_int_numeral. }
  constructor; [split; [by exists 89, 1%nat|]|].
  { apply (numeral_inert _ _ Hletters), last_chars_numeral, str_int_numeral. }
  constructor; [split; [by exists 77, 1%nat|]|].
  { apply (numeral_inert _ _ Hletters), format_0d_numeral. }
  constructor; [split; [by exists 68, 1%nat|]|constructor].
  apply (numeral_inert _ _ Hletters), format_0d_numeral.
Qed.

Lemma time_tokens_plain (v : datetime) : plain_table (Formatter.time_replacements v).
Proof.
  pose proof (letters_not_numeral (Formatter.time_replacements v) eq_refl)
    as Hletters.
  unfold plain_table.
  constructor; [split; [by exists 72, 1%nat|]|].
  { apply (numeral_inert _ _ Hletters), format_0d_numeral. }
  constructor; [split; [by exists 109, 1%nat|]|].
  { apply (numeral_inert _ _ Hletters), format_0d_numeral. }
  constructor; [split; [by exists 115, 1%nat|]|constructor].
  apply (numeral_inert _ _ Hletters), format_0d_numeral.
Qed.

(** The date marks are replaced by themselves. *)
Lemma date_marks_identity s : Formatter.replace_all Formatter.date_marks s = s.
Proof.
  unfold Formatter.replace_all, Formatter.date_marks. cbn [fold_left fst snd].
  change (u "年") with [24180]. change (u "月") with [26376].
  change (u "日") with [26085]. by rewrite !replace_same.
Qed.

Lemma date_by_position (self : Formatter.t) (v : date) (format_str : option pystr) :
  Formatter.date self v format_str
  = scan_tokens (Formatter.date_tokens v) 0 (str_or format_str (date_format self)).
Proof.
  unfold Formatter.date, Formatter.date_replacements.
  assert (Hsplit : ∀ t1 t2 s,
            Formatter.replace_all (t1 ++ t2) s
            = Formatter.replace_all t2 (Formatter.replace_all t1 s))
    by (intros; apply fold_left_app).
  rewrite Hsplit, date_marks_identity.
  apply replace_all_scan, date_tokens_plain.
Qed.

Lemma time_by_position (self : Formatter.t) (v : datetime) (format_str : option pystr) :
  Formatter.time self v format_str
  = scan_tokens (Formatter.time_replacements v) 0
      (str_or format_str (time_format self)).
Proof. unfold Formatter.time. apply replace_all_scan, time_tokens_plain. Qed.

Lemma all_from_spec (f : Z → bool) (n : nat) (start : Z) :
  all_from f n start = true →
  ∀ z, (start ≤ z < start + Z.of_nat n)%Z → f z = true.
Proof.
  revert start. induction n as [|n IH]; intros start Hall z Hz; [lia|].
  cbn [all_from] in Hall. apply andb_true_iff in Hall as [Hstart Hall].
  destruct (Z.eq_dec z start) as [->|Hne]; [done|].
  apply (IH (start + 1)%Z); [done|lia].
Qed.

(** Two digits for every value a clock or a calendar has. *)
Lemma format_0d_two_digits z :
  (0 ≤ z < 100)%Z → length (format_0d 2 z) = 2%nat.
Proof.
  intros Hz. apply Nat.eqb_eq.
  apply (all_from_spec (λ z, length (format_0d 2 z) =? 2)%nat (Z.to_nat 100) 0);
    [vm_compute; reflexivity | lia].
Qed.

(** Four digits from the year 1000 on. *)
Lemma str_int_four_digits z :
  (1000 ≤ z ≤ 9999)%Z → length (str_int z) = 4%nat.
Proof.
  intros Hz. apply Nat.eqb_eq.
  apply (all_from_spec (λ z, length (str_int z) =? 4)%nat (Z.to_nat 9000) 1000);
    [vm_compute; reflexivity | lia].
Qed.

(** C7 (the code departs from it). [date] and [time] replace the tokens
    at the places where they stand in the format string, the leftmost
    first and YYYY before YY, and copy every other character; a value
    written out is never replaced again. MM, DD, HH, mm and ss are written
    with two digits. But the year is written with [str], not padded as the
    month and the day are: a year below 1000 gives fewer than four digits
    for YYYY, and a year below 10 a single digit for YY. *)
Theorem date_year_not_padded :
  (∀ (self : Formatter.t) (v : date) (format_str : option pystr),
     Formatter.date self v format_str
     = scan_tokens (Formatter.date_tokens v) 0
         (str_or format_str (date_format self)))
  ∧ (∀ (self : Formatter.t) (v : datetime) (format_str : option pystr),
       Formatter.time self v format_str
       = scan_tokens (Formatter.time_replacements v) 0
           (str_or format_str (time_format self)))
  ∧ Formatter.date TranslationStore.en_US
      {| year := 999; month := 1; day := 2 |} None = u "999-01-02"
  ∧ Formatter.date TranslationStore.en_US
      {| year := 5; month := 1; day := 2 |} (Some (u "YY/MM/DD")) = u "5/01/02"
  ∧ Formatter.date TranslationStore.ja_JP
      {| year := 2026; month := 11; day := 3 |} None = u "2026年11月03日"
  ∧ Formatter.time TranslationStore.en_US
      {| dt_date := {| year := 2026; month := 11; day := 3 |};
         hour := 9; minute := 5; second := 0 |} None = u "09:05:00".
Proof.
  split; [exact date_by_position|]. split; [exact time_by_position|].
  repeat split; vm_compute; reflexivity.
Qed.

End DateFacts.

(** * Further properties of the code *)

(** ** TranslationStore: locales and translations *)

Section StoreTheorems.

Implicit Types (self : TranslationStore.t) (tr : Translation) (l k c : pystr).

Lemma get_translation_add self tr l k :
  TranslationStore.get_translation (TranslationStore.add_translation self tr) l k
  = if bool_decide (l = locale tr ∧ k = key tr) then Some tr
    else TranslationStore.get_translation self l k.
Proof.
  unfold TranslationStore.get_translation, TranslationStore.add_translation.
  cbn [TranslationStore.translations].
  destruct (decide (l = locale tr)) as [->|Hl].
  - rewrite lookup_insert_eq.
    destruct (decide (k = key tr)) as [->|Hk].
    + rewrite lookup_insert_eq. by rewrite bool_decide_eq_true_2.
    + rewrite lookup_insert_ne by done.
      rewrite bool_decide_eq_false_2 by (by intros [_ ?]).
      by destruct (TranslationStore.translations self !! locale tr).
  - rewrite lookup_insert_ne by done.
    by rewrite bool_decide_eq_false_2 by (by intros [? _]).
Qed.

Lemma get_translation_add_locale self (loc : Locale) l k :
  TranslationStore.get_translation (TranslationStore.add_locale self loc) l k
  = TranslationStore.get_translation self l k.
Proof.
  unfold TranslationStore.get_translation, TranslationStore.add_locale.
  cbn [TranslationStore.translations].
  destruct (TranslationStore.translations self !! code loc) eqn:Hcode; [done|].
  destruct (decide (l = code loc)) as [->|Hl].
  - by rewrite lookup_insert_eq, Hcode.
  - by rewrite lookup_insert_ne.
Qed.

Lemma get_locale_add_locale self (loc : Locale) c :
  TranslationStore.get_locale (TranslationStore.add_locale self loc) c
  = if bool_decide (c = code loc) then Some loc
    else TranslationStore.get_locale self c.
Proof.
  unfold TranslationStore.get_locale, TranslationStore.add_locale.
  cbn [TranslationStore.locales]. case_bool_decide as Hc.
  - subst c. apply lookup_insert_eq.
  - by rewrite lookup_insert_ne.
Qed.

(** X1. After [add_translation(tr)], [get_translation] finds [tr] under
    its locale and key, and finds under every other locale or key what it
    found before. *)
Theorem get_after_add_translation self tr l k :
  TranslationStore.get_translation (TranslationStore.add_translation self tr) l k
  = if bool_decide (l = locale tr ∧ k = key tr) then Some tr
    else TranslationStore.get_translation self l k.
Proof. apply get_translation_add. Qed.

(** X2. A translation added under a locale and key that already hold one
    replaces it: the store is the one the second [add_translation] alone
    would give. No [add_translation] registers a locale. *)
Theorem add_translation_overwrites self (tr1 tr2 : Translation) :
  (locale tr1 = locale tr2 → key tr1 = key tr2 →
   TranslationStore.add_translation (TranslationStore.add_translation self tr1) tr2
   = TranslationStore.add_translation self tr2)
  ∧ ∀ c, TranslationStore.get_locale
           (TranslationStore.add_translation
              (TranslationStore.add_translation self tr1) tr2) c
         = TranslationStore.get_locale self c.
Proof.
  split; [|done]. intros Hl Hk.
  unfold TranslationStore.add_translation. cbn [TranslationStore.translations
    TranslationStore.locales]. f_equal.
  rewrite Hl, Hk, lookup_insert_eq, !insert_insert_eq. done.
Qed.

(** X3. After [add_locale(loc)], [get_locale] finds [loc] under its code
    and finds under every other code what it found before; and no
    translation is lost or gained, also when the code was registered
    before. *)
Theorem add_locale_keeps_translations self (loc : Locale) :
  (∀ c, TranslationStore.get_locale (TranslationStore.add_locale self loc) c
        = if bool_decide (c = code loc) then Some loc
          else TranslationStore.get_locale self c)
  ∧ ∀ l k, TranslationStore.get_translation
             (TranslationStore.add_locale self loc) l k
           = TranslationStore.get_translation self l k.
Proof.
  split; [apply get_locale_add_locale | apply get_translation_add_locale].
Qed.

Lemma get_translation_add_locales self (locs : list Locale) l k :
  TranslationStore.get_translation
    (fold_left TranslationStore.add_locale locs self) l k
  = TranslationStore.get_translation self l k.
Proof.
  revert self. induction locs as [|loc locs IH]; intros self; [done|].
  cbn [fold_left]. rewrite IH. apply get_translation_add_locale.
Qed.

Lemma init_no_translation l k :
  TranslationStore.get_translation TranslationStore.init l k = None.
Proof.
  unfold TranslationStore.init. rewrite get_translation_add_locales.
  unfold TranslationStore.get_translation. cbn. by rewrite lookup_empty.
Qed.

Lemma find_app {A} (P : A → bool) (xs ys : list A) :
  find P (xs ++ ys) = match find P xs with
                      | Some x => Some x
                      | None => find P ys
                      end.
Proof. induction xs as [|x xs IH]; [done|]. cbn. by destruct (P x). Qed.

(** Adding a list of translations in turn: the last one with a locale and
    key is the one found. *)
Lemma get_after_adds self (ts : list Translation) l k :
  TranslationStore.get_translation
    (fold_left TranslationStore.add_translation ts self) l k
  = match last_added ts l k with
    | Some tr => Some tr
    | None => TranslationStore.get_translation self l k
    end.
Proof.
  revert self. induction ts as [|t ts IH]; intros self; [done|].
  cbn [fold_left]. rewrite IH. unfold last_added. cbn [rev].
  rewrite find_app. destruct (find _ (rev ts)); [done|].
  cbn [find]. rewrite get_translation_add.
  case_bool_decide as Hm.
  - destruct Hm as [-> ->]. by rewrite bool_decide_eq_true_2.
  - rewrite bool_decide_eq_false_2; [done|]. intros [<- <-]. by apply Hm.
Qed.

Lemma locales_after_adds self (ts : list Translation) :
  TranslationStore.locales (fold_left TranslationStore.add_translation ts self)
  = TranslationStore.locales self.
Proof. revert self. induction ts as [|t ts IH]; intros self; [done|]. cbn. by rewrite IH. Qed.

Lemma last_added_none (ts : list Translation) l k :
  Forall (λ tr, ¬ (locale tr = l ∧ key tr = k)) ts → last_added ts l k = None.
Proof.
  intros Hts. unfold last_added. apply find_none_all.
  apply Forall_rev. eapply Forall_impl; [exact Hts|].
  intros tr Htr. by apply bool_decide_eq_false_2.
Qed.

End StoreTheorems.

(** ** load_json: what a load leaves in the store *)

Section LoadJsonMore.

Context `{PyBuiltins}.

Implicit Types (self : TranslationStore.t) (l k fk prefix p : pystr).
Implicit Types (data : list (pystr * pyval)).

Lemma is_prefix_app_r p (s t : pystr) :
  is_prefix p s = true → is_prefix p (s ++ t) = true.
Proof.
  revert s. induction p as [|a p IH]; intros s Hs; [done|].
  destruct s as [|b s]; [done|]. cbn [app is_prefix] in *.
  apply andb_true_iff in Hs as [-> Hs]. by rewrite IH.
Qed.

Lemma is_prefix_full_key p fk k :
  is_prefix p fk = true → is_prefix p (TranslationStore.full_key fk k) = true.
Proof.
  intros Hp. unfold TranslationStore.full_key. destruct fk as [|c fk].
  - by destruct p.
  - by apply is_prefix_app_r.
Qed.

(** Every translation of an entry is of the locale loaded, and its key
    starts as the key of the entry does. *)
Lemma leaf_translations_keys (v : pyval) :
  ∀ l fk p,
    is_prefix p fk = true →
    Forall (λ tr, locale tr = l ∧ is_prefix p (key tr) = true)
      (leaf_translations l fk v).
Proof.
  induction v as [| | | | |vs _|d IH] using pyval_nested_ind; intros l fk p Hp;
    try (by repeat constructor).
  cbn [leaf_translations].
  destruct (TranslationStore.is_plural_bundle d); [by repeat constructor|].
  induction IH as [|[k v] d Hv _ IHd]; [constructor|].
  apply Forall_app. split; [|exact IHd].
  apply Hv. by apply is_prefix_full_key.
Qed.

Lemma flatten_keys l prefix p data :
  is_prefix p prefix = true →
  Forall (λ tr, locale tr = l ∧ is_prefix p (key tr) = true)
    (flatten l prefix data).
Proof.
  intros Hp. induction data as [|[k v] data IH]; [constructor|].
  cbn [flatten]. apply Forall_app. split; [|exact IH].
  apply leaf_translations_keys. by apply is_prefix_full_key.
Qed.

Lemma flatten_dotted l prefix data :
  prefix ≠ [] →
  Forall (λ tr, is_prefix (prefix ++ u ".") (key tr) = true)
    (flatten l prefix data).
Proof.
  intros Hne. induction data as [|[k v] data IH]; [constructor|].
  cbn [flatten]. apply Forall_app. split; [|exact IH].
  eapply Forall_impl.
  - apply (leaf_translations_keys v l _ (prefix ++ u ".")).
    unfold TranslationStore.full_key. destruct prefix as [|c prefix]; [done|].
    rewrite app_assoc. apply is_prefix_app.
  - by intros tr [_ ?].
Qed.

Lemma flatten_app l prefix data1 data2 :
  flatten l prefix (data1 ++ data2)
  = flatten l prefix data1 ++ flatten l prefix data2.
Proof.
  induction data1 as [|[k v] data1 IH]; [done|].
  cbn [app flatten]. by rewrite IH, app_assoc.
Qed.

(** X4. What is found after a load: under the locale loaded, the last
    translation the input gives for the key, or what was there when the
    input gives none; under any other locale, what was there. The
    registered locales are the same. *)
Theorem load_json_lookup self l data prefix :
  (∀ k, TranslationStore.get_translation
          (snd (TranslationStore.load_json self l data prefix)) l k
        = match last_added (flatten l prefix data) l k with
          | Some tr => Some tr
          | None => TranslationStore.get_translation self l k
          end)
  ∧ (∀ l' k, l' ≠ l →
       TranslationStore.get_translation
         (snd (TranslationStore.load_json self l data prefix)) l' k
       = TranslationStore.get_translation self l' k)
  ∧ (∀ c, TranslationStore.get_locale
            (snd (TranslationStore.load_json self l data prefix)) c
          = TranslationStore.get_locale self c).
Proof.
  rewrite load_json_flatten. cbn [snd]. split; [|split].
  - intros k. apply get_after_adds.
  - intros l' k Hl. rewrite get_after_adds, last_added_none; [done|].
    eapply Forall_impl; [apply (flatten_keys l prefix [] data); done|].
    intros tr [Htr _] [Hl' _]. congruence.
  - intros c. unfold TranslationStore.get_locale. by rewrite locales_after_adds.
Qed.

(** X5. A load under a prefix only writes keys that start with the prefix
    and a dot: every other key is found as before. *)
Theorem load_json_under_prefix self l data prefix k :
  prefix ≠ [] →
  is_prefix (prefix ++ u ".") k = false →
  TranslationStore.get_translation
    (snd (TranslationStore.load_json self l data prefix)) l k
  = TranslationStore.get_translation self l k.
Proof.
  intros Hne Hk. rewrite load_json_flatten. cbn [snd].
  rewrite get_after_adds, last_added_none; [done|].
  eapply Forall_impl; [by apply flatten_dotted|].
  intros tr Htr [_ Hkey]. cbn beta in Htr. congruence.
Qed.

(** X6. Loading a mapping whose entries are those of [data1] followed by
    those of [data2] is loading [data1] and then [data2]: the counts add
    up and the store is the same. *)
Theorem load_json_app self l data1 data2 prefix :
  TranslationStore.load_json self l (data1 ++ data2) prefix
  = let r1 := TranslationStore.load_json self l data1 prefix in
    let r2 := TranslationStore.load_json (snd r1) l data2 prefix in
    ((fst r1 + fst r2)%nat, snd r2).
Proof.
  cbn zeta. rewrite !load_json_flatten. cbn [fst snd].
  by rewrite flatten_app, length_app, fold_left_app.
Qed.

End LoadJsonMore.

(** ** Translator and the facade: further properties *)

Section TranslatorMore.

Context `{PyBuiltins}.

Implicit Types (self : Translator.t) (k l name text : pystr) (h : heap).
Implicit Types (params : option positive) (count : option Z).

(** X7. A store that was just created holds no translation, so a
    translator on it answers every key, for every locale, with the
    default passed or the key. *)
Theorem translate_on_new_store (dl : pystr) k (lo : option pystr) params count
    (dflt : option pystr) h :
  (∀ l k', TranslationStore.get_translation TranslationStore.init l k' = None)
  ∧ fst (Translator.translate (Translator.init TranslationStore.init dl)
           k lo params count dflt h)
    = Returns (default k dflt).
Proof.
  split; [apply init_no_translation|].
  rewrite translate_unfold, translate_loop_none; [done|].
  intros c _. apply init_no_translation.
Qed.

(** X8. [has_translation] looks at the locale asked for and at no other:
    when it answers true, [translate] resolves with the entry of that
    locale itself, not with one of a fallback. *)
Theorem has_translation_translate self k (lo : option pystr) params count
    (dflt : option pystr) h :
  Translator.has_translation self k lo = true →
  ∃ tr,
    TranslationStore.get_translation (Translator.store self)
      (Translator.locale_or_default self lo) k = Some tr
    ∧ Translator.translate self k lo params count dflt h
      = Translator.resolve self (Translator.locale_or_default self lo) tr
          (fst (Translator.params_or_new params h)) count
          (snd (Translator.params_or_new params h)).
Proof.
  unfold Translator.has_translation. intros Hhas.
  destruct (TranslationStore.get_translation (Translator.store self)
              (Translator.locale_or_default self lo) k) as [tr|] eqn:Hget; [|done].
  exists tr. split; [done|].
  rewrite translate_unfold. unfold Translator.locales_to_try.
  cbn [app Translator.translate_loop]. by rewrite Hget.
Qed.

(** X9. [translate] writes to no dictionary but the one it was passed:
    every other dictionary of the caller is as it was. *)
Theorem translate_frame self k (lo : option pystr) params count
    (dflt : option pystr) h (r : positive) :
  is_Some (h !! r) → params ≠ Some r →
  snd (Translator.translate self k lo params count dflt h) !! r = h !! r.
Proof.
  intros Hr Hparams. rewrite translate_unfold.
  destruct (Translator.translate_loop _ _ _ _ _ _) as [res|] eqn:Hloop;
    cbn [snd]; [|by apply params_or_new_keeps].
  rewrite (translate_loop_frame _ _ _ _ _ _ _ r Hloop).
  - by apply params_or_new_keeps.
  - assert (fresh (dom h) ≠ r) as Hfresh.
    { intros <-. apply elem_of_dom in Hr. by apply is_fresh in Hr. }
    unfold Translator.params_or_new.
    destruct params as [r'|]; [destruct (h !! r') as [d|]; [case_bool_decide|]|];
      cbn [fst]; congruence.
Qed.

Lemma occurs_middle (p pre post : pystr) : occurs p (pre ++ p ++ post) = true.
Proof.
  induction pre as [|c pre IH]; cbn [app].
  - destruct (p ++ post) eqn:Hp; cbn [occurs]; rewrite <- Hp, is_prefix_app; done.
  - cbn [occurs]. rewrite IH. apply orb_true_r.
Qed.

Lemma occurs_prefix (p q s : pystr) : occurs (p ++ q) s = true → occurs p s = true.
Proof.
  assert (Hpre : ∀ s, is_prefix (p ++ q) s = true → is_prefix p s = true).
  { clear s. induction p as [|a p IH]; intros s Hs; [done|].
    destruct s as [|b s]; [done|]. cbn [app is_prefix] in *.
    apply andb_true_iff in Hs as [-> Hs]. by rewrite IH. }
  induction s as [|c s IH]; cbn [occurs]; intros Hs.
  - rewrite orb_false_r in Hs |- *. by apply Hpre.
  - apply orb_true_iff in Hs as [Hs|Hs].
    + by rewrite Hpre.
    + rewrite IH by done. apply orb_true_r.
Qed.

Lemma template_unbound (bound : gmap pystr pyval) (segments : list (pystr * pystr)) (last : pystr) :
  Forall (λ seg, bound !! snd seg = None) segments →
  fill_template bound segments last = render_template segments last.
Proof.
  intros Hsegs. unfold fill_template, render_template. f_equal.
  induction Hsegs as [|seg segments Hseg _ IH]; [done|].
  cbn [flat_map]. unfold Translator.replace_match at 1. by rewrite Hseg, IH.
Qed.

Lemma template_occurs (segments : list (pystr * pystr)) (last : pystr) :
  Forall (λ seg, occurs (Translator.placeholder (snd seg))
                   (render_template segments last) = true) segments.
Proof.
  apply Forall_forall. intros seg Hseg.
  apply list_elem_of_split in Hseg as (s1 & s2 & ->).
  unfold render_template. rewrite flat_map_app. cbn [flat_map].
  rewrite <- !app_assoc. rewrite (app_assoc _ (fst seg)).
  apply occurs_middle.
Qed.

Lemma interpolate_unbound (bound : gmap pystr pyval) text :
  (∀ name, is_identifier name = true →
           occurs (Translator.placeholder name) text = true →
           bound !! name = None) →
  Translator._interpolate (PStr text) bound = Returns text.
Proof.
  intros Hb. cbn [Translator._interpolate]. f_equal.
  destruct (template_exists text) as (segments & last & -> & Hcut).
  rewrite sub_template by done. apply template_unbound.
  pose proof (template_occurs segments last) as Hocc.
  destruct Hcut as [Hsegs _]. rewrite Forall_forall in Hocc, Hsegs.
  apply Forall_forall. intros seg Hseg.
  apply Hb; [by apply Hsegs | by apply Hocc].
Qed.

(** X10. Interpolation leaves a text as it is when none of the
    placeholders in it names a parameter: in particular when there are no
    parameters, and when the text has no "{{". *)
Theorem interpolate_unchanged (bound : gmap pystr pyval) text :
  ((∀ name, is_identifier name = true →
            occurs (Translator.placeholder name) text = true →
            bound !! name = None) →
   Translator._interpolate (PStr text) bound = Returns text)
  ∧ Translator._interpolate (PStr text) ∅ = Returns text
  ∧ (occurs (u "{{") text = false →
     Translator._interpolate (PStr text) bound = Returns text).
Proof.
  split; [apply interpolate_unbound|]. split.
  - apply interpolate_unbound. intros. apply lookup_empty.
  - intros Hnone. apply interpolate_unbound. intros name _ Hocc.
    unfold Translator.placeholder in Hocc. apply occurs_prefix in Hocc.
    congruence.
Qed.

(** X11. A translation without plural forms, or asked for without a
    count, whose value is a string, comes back as that string when no
    parameters are passed, placeholders included. So a string loaded
    under a key is what [I18n.t] returns for that key once the locale is
    set. *)
Theorem load_then_translate :
  (∀ self k (lo : option pystr) count (dflt : option pystr) h
     (tr : Translation) (s : pystr),
     TranslationStore.get_translation (Translator.store self)
       (Translator.locale_or_default self lo) k = Some tr →
     value tr = PStr s →
     count = None ∨ plural_forms tr = [] →
     fst (Translator.translate self k lo None count dflt h) = Returns s)
  ∧ (∀ (i18n : I18n.t) l k (v : pyval) count (dflt : option pystr) h,
       l ≠ [] → (∀ d, v ≠ PDict d) →
       fst (I18n.t_
              (I18n.set_locale (snd (I18n.load_translations i18n l [(k, v)])) l)
              k None count dflt h)
       = Returns (py_str v)).
Proof.
  assert (Hfirst : ∀ self k (lo : option pystr) count (dflt : option pystr) h
     (tr : Translation) (s : pystr),
     TranslationStore.get_translation (Translator.store self)
       (Translator.locale_or_default self lo) k = Some tr →
     value tr = PStr s →
     count = None ∨ plural_forms tr = [] →
     fst (Translator.translate self k lo None count dflt h) = Returns s).
  { intros self k lo count dflt h tr s Hget Hval Hplain.
    rewrite translate_unfold. unfold Translator.locales_to_try.
    cbn [app Translator.translate_loop]. rewrite Hget.
    assert (Translator.resolve self (Translator.locale_or_default self lo) tr
              (fst (Translator.params_or_new None h)) count
              (snd (Translator.params_or_new None h))
            = (Translator._interpolate (value tr)
                 (default ∅ (snd (Translator.params_or_new None h)
                               !! fst (Translator.params_or_new None h))),
               snd (Translator.params_or_new None h))) as ->.
    { unfold Translator.resolve. destruct Hplain as [-> | ->]; [done|].
      by destruct count. }
    cbn [fst]. rewrite params_or_new_content, Hval.
    apply interpolate_unbound. intros. apply lookup_empty. }
  split; [exact Hfirst|].
  intros i18n l k v count dflt h Hl Hv.
  unfold I18n.t_, I18n.set_locale, I18n.load_translations.
  rewrite load_json_flatten.
  cbn [I18n.translator I18n.locale_manager LocaleManager.translator
       LocaleManager.current LocaleManager._current_locale default snd].
  apply (Hfirst _ _ _ _ _ _ (TranslationStore.scalar_translation l k v)).
  - cbn [Translator.store Translator.locale_or_default str_or].
    destruct l as [|c l]; [done|]. cbn [str_or flatten].
    destruct v; try (rewrite app_nil_r; cbn [leaf_translations fold_left];
      apply (get_add_translation _ (TranslationStore.scalar_translation (c :: l) k _))).
    by destruct (Hv d).
  - done.
  - by right.
Qed.

(** X12. [set_locale] then [get_locale] gives the locale back, the empty
    string too; but with an empty current locale [I18n.t] translates as
    [translate] does without a locale, in the default locale. *)
Theorem set_locale_get_locale (i18n : I18n.t) l :
  I18n_get_locale (I18n.set_locale i18n l) = l
  ∧ ∀ k params count (dflt : option pystr) h,
      I18n.t_ (I18n.set_locale i18n []) k params count dflt h
      = Translator.translate (I18n.translator i18n) k None params count dflt h.
Proof.
  split; [done|]. intros k params count dflt h.
  unfold I18n.t_. by rewrite !translate_unfold.
Qed.

End TranslatorMore.

(** ** The invariant of the store *)

Section StoreInvariant.

Context `{PyBuiltins}.

Implicit Types (self : TranslationStore.t) (tr : Translation) (l k c : pystr).

Lemma keyed_add_locale self (loc : Locale) :
  keyed self → keyed (TranslationStore.add_locale self loc).
Proof.
  intros [Hloc Htr]. split.
  - intros c loc'. rewrite get_locale_add_locale.
    case_bool_decide as Hc; [|apply Hloc]. intros [= <-]. done.
  - intros l k tr. rewrite get_translation_add_locale. apply Htr.
Qed.

Lemma keyed_add_translation self tr :
  keyed self → keyed (TranslationStore.add_translation self tr).
Proof.
  intros [Hloc Htr]. split; [exact Hloc|].
  intros l k tr'. rewrite get_translation_add.
  case_bool_decide as Hm; [|apply Htr]. destruct Hm as [-> ->]. by intros [= <-].
Qed.

Lemma keyed_fold {A} (f : TranslationStore.t → A → TranslationStore.t)
    (xs : list A) self :
  (∀ st x, keyed st → keyed (f st x)) → keyed self → keyed (fold_left f xs self).
Proof.
  intros Hf. revert self. induction xs as [|x xs IH]; intros self Hself; [done|].
  cbn [fold_left]. by apply IH, Hf.
Qed.

(** X13. A locale is filed under its own code and a translation under
    its own locale and key: this holds of a new store and is kept by
    [add_locale], [add_translation] and [load_json], so whatever
    [get_locale] and [get_translation] return carries the code, locale and
    key it was asked for. *)
Theorem store_keyed :
  keyed TranslationStore.init
  ∧ (∀ self (loc : Locale), keyed self → keyed (TranslationStore.add_locale self loc))
  ∧ (∀ self tr, keyed self → keyed (TranslationStore.add_translation self tr))
  ∧ (∀ self l (data : list (pystr * pyval)) prefix,
       keyed self → keyed (snd (TranslationStore.load_json self l data prefix))).
Proof.
  split; [|split; [|split]].
  - unfold TranslationStore.init. apply keyed_fold; [apply keyed_add_locale|].
    split.
    + intros c loc. unfold TranslationStore.get_locale. cbn. by rewrite lookup_empty.
    + intros l k tr. unfold TranslationStore.get_translation. cbn.
      by rewrite lookup_empty.
  - apply keyed_add_locale.
  - apply keyed_add_translation.
  - intros self l data prefix Hself. rewrite load_json_flatten. cbn [snd].
    by apply keyed_fold; [apply keyed_add_translation|].
Qed.

End StoreInvariant.

(** ** Formatters *)

Section FormatterMore.

Implicit Types (self : Formatter.t) (m : LocaleManager.t) (l c : pystr).

(** X14. The percentage of an [int] has no decimals, whatever [decimals]
    says, and no decimal mark: the digits of [value * 100], grouped, and a
    percent sign. *)
Theorem percentage_of_int self (z : Z) (decimals : nat) :
  Formatter.percentage self (VInt z) decimals
  = Some (sign_of (z <? 0)%Z
            ++ group3 (number_thousand self) (digits (Z.abs_N (z * 100)))
            ++ u "%").
Proof.
  unfold Formatter.percentage. cbn [Formatter.times_100]. f_equal.
  rewrite number_int. unfold render_number, assemble. cbn [fst snd].
  rewrite app_nil_r, <- app_assoc.
  do 2 f_equal. destruct z; cbn; lia || done.
Qed.

(** X15. An empty string passed for an optional argument counts as no
    argument: the currency symbol, the date and time formats, and the
    locale of [translate], [has_translation] and [get_formatter] are then
    the locale's or the default ones. *)
Theorem empty_argument_is_absent `{PyBuiltins} :
  (∀ self v, Formatter.currency self v (Some []) = Formatter.currency self v None)
  ∧ (∀ self (d : date), Formatter.date self d (Some []) = Formatter.date self d None)
  ∧ (∀ self (d : datetime), Formatter.time self d (Some []) = Formatter.time self d None)
  ∧ (∀ (tl : Translator.t) k params count (dflt : option pystr) (h : heap),
       Translator.translate tl k (Some []) params count dflt h
       = Translator.translate tl k None params count dflt h)
  ∧ (∀ (tl : Translator.t) k,
       Translator.has_translation tl k (Some []) = Translator.has_translation tl k None)
  ∧ (∀ m, LocaleManager.get_formatter m (Some []) = LocaleManager.get_formatter m None).
Proof.
  repeat split; intros; by rewrite ?translate_unfold.
Qed.

Lemma cache_hit m (lo : option pystr) (f : option Formatter.t) :
  LocaleManager._formatters m !! str_or lo (LocaleManager.current m) = Some f →
  LocaleManager.get_formatter m lo = (f, m).
Proof. intros Hhit. unfold LocaleManager.get_formatter. by rewrite Hhit. Qed.

Lemma cache_filled m m' (lo : option pystr) (f : option Formatter.t) :
  LocaleManager.get_formatter m lo = (f, m') →
  LocaleManager._formatters m' !! str_or lo (LocaleManager.current m) = Some f
  ∧ LocaleManager.translator m' = LocaleManager.translator m
  ∧ LocaleManager._current_locale m' = LocaleManager._current_locale m
  ∧ ∀ c, c ≠ str_or lo (LocaleManager.current m) →
         LocaleManager._formatters m' !! c = LocaleManager._formatters m !! c.
Proof.
  unfold LocaleManager.get_formatter.
  destruct (LocaleManager._formatters m !! _) as [f0|] eqn:Hhit.
  - intros [= <- <-]. done.
  - intros [= <- <-].
    cbn [LocaleManager._formatters LocaleManager.translator
         LocaleManager._current_locale].
    split; [apply lookup_insert_eq|]. split; [done|]. split; [done|].
    intros c Hc. by rewrite lookup_insert_ne.
Qed.

Lemma cache_sticky m m' (lo : option pystr) (f : option Formatter.t)
    (st : TranslationStore.t) :
  LocaleManager.get_formatter m lo = (f, m') →
  LocaleManager.get_formatter (LocaleManager.with_store m' st) lo
  = (f, LocaleManager.with_store m' st).
Proof.
  intros Hget. destruct (cache_filled _ _ _ _ Hget) as (Hf & Htr & Hcur & _).
  apply cache_hit. unfold LocaleManager.with_store.
  cbn [LocaleManager._formatters]. unfold LocaleManager.current in *.
  cbn [LocaleManager._current_locale LocaleManager.translator
       Translator.default_locale]. by rewrite Htr, Hcur.
Qed.

(** X16. The formatter first built for a locale code is the one every
    later [get_formatter] for that code returns, whatever was written to
    the store in between; a call changes the cache under that code only
    and leaves the rest of the manager as it was. *)
Theorem formatter_cache_first_wins m m' (lo : option pystr)
    (f : option Formatter.t) :
  LocaleManager.get_formatter m lo = (f, m') →
  (∀ st, LocaleManager.get_formatter (LocaleManager.with_store m' st) lo
         = (f, LocaleManager.with_store m' st))
  ∧ LocaleManager.translator m' = LocaleManager.translator m
  ∧ LocaleManager._current_locale m' = LocaleManager._current_locale m
  ∧ ∀ c, c ≠ str_or lo (LocaleManager.current m) →
         LocaleManager._formatters m' !! c = LocaleManager._formatters m !! c.
Proof.
  intros Hget. split.
  - intros st. exact (cache_sticky _ _ _ _ st Hget).
  - destruct (cache_filled _ _ _ _ Hget) as (_ & Htr & Hcur & Hrest). by repeat split.
Qed.

(** X17. For a code the store has no locale for and the cache has no
    formatter for, [get_formatter] gives the formatter of the default
    locale, and the fallback chain of the translator plays no part. That
    formatter stays under the code after the locale is added; had the
    locale been added first, its own formatter would be returned. *)
Theorem formatter_of_unknown_locale m l (loc : Locale) :
  l ≠ [] →
  TranslationStore.get_locale (Translator.store (LocaleManager.translator m)) l = None →
  LocaleManager._formatters m !! l = None →
  code loc = l →
  let st := Translator.store (LocaleManager.translator m) in
  let dflt := TranslationStore.get_locale st
                (Translator.default_locale (LocaleManager.translator m)) in
  let later := LocaleManager.with_store
                 (snd (LocaleManager.get_formatter m (Some l)))
                 (TranslationStore.add_locale st loc) in
  fst (LocaleManager.get_formatter m (Some l)) = dflt
  ∧ fst (LocaleManager.get_formatter later (Some l)) = dflt
  ∧ fst (LocaleManager.get_formatter
           (LocaleManager.with_store m (TranslationStore.add_locale st loc))
           (Some l)) = Some loc.
Proof.
  intros Hl Hnone Hcache Hcode st dflt later.
  assert (Hor : ∀ t, str_or (Some l) t = l) by (by destruct l).
  assert (Hfirst : LocaleManager.get_formatter m (Some l)
                   = (dflt, snd (LocaleManager.get_formatter m (Some l)))).
  { unfold LocaleManager.get_formatter. rewrite Hor, Hcache, Hnone. done. }
  split; [|split].
  - by rewrite Hfirst.
  - unfold later. by rewrite (cache_sticky _ _ _ _ _ Hfirst).
  - unfold LocaleManager.get_formatter, LocaleManager.with_store.
    cbn [LocaleManager._formatters LocaleManager.translator Translator.store].
    unfold LocaleManager.current.
    cbn [LocaleManager._current_locale LocaleManager.translator
         Translator.default_locale].
    rewrite Hor, Hcache, get_locale_add_locale.
    by rewrite bool_decide_eq_true_2.
Qed.

(** X18. With the formatter [get_formatter] returns for the current
    locale, the cached one when there is one, [I18n.format] gives a date
    to [Formatter.date] under every tag but "number" and "currency",
    "percentage" included; a [datetime] is formatted as its date, the
    time dropped. A string comes back as it is under every tag that names
    no formatter, also when the formatter has no locale. *)
Theorem format_date_and_str (i18n : I18n.t) (ft : pystr) :
  (∀ f : Formatter.t,
     fst (LocaleManager.get_formatter (I18n.locale_manager i18n) None) = Some f →
     ft ≠ u "number" → ft ≠ u "currency" →
     ∀ (d : date) (dt : datetime),
       fst (I18n.format i18n (ADate d) ft) = Some (Formatter.date f d None)
       ∧ fst (I18n.format i18n (ADateTime dt) ft)
         = Some (Formatter.date f (dt_date dt) None))
  ∧ (ft ≠ u "number" → ft ≠ u "currency" → ft ≠ u "date" → ft ≠ u "percentage" →
     ∀ s, fst (I18n.format i18n (AStr s) ft) = Some s).
Proof.
  unfold I18n.format.
  destruct (LocaleManager.get_formatter (I18n.locale_manager i18n) None)
    as [fo lm]. cbn [fst]. split.
  - intros f -> Hn Hc d dt. unfold I18n.format_with.
    rewrite !(bool_decide_eq_false_2 (ft = u "number")) by done.
    rewrite !(bool_decide_eq_false_2 (ft = u "currency")) by done.
    cbn [I18n.as_number I18n.as_date].
    rewrite !(bool_decide_eq_false_2 (is_Some None)) by (by intros [? ?]).
    rewrite !(bool_decide_eq_true_2 (is_Some (Some _))) by done.
    rewrite !orb_true_r. cbn [orb fmap option_fmap option_map]. done.
  - intros Hn Hc Hd Hp s.
    destruct fo as [f|]; unfold I18n.format_with, I18n.format_without_locale;
      rewrite !(bool_decide_eq_false_2 (ft = u "number")) by done;
      rewrite !(bool_decide_eq_false_2 (ft = u "currency")) by done;
      rewrite !(bool_decide_eq_false_2 (ft = u "date")) by done;
      rewrite !(bool_decide_eq_false_2 (ft = u "percentage")) by done;
      cbn [I18n.as_number I18n.as_date];
      rewrite !(bool_decide_eq_false_2 (is_Some None)) by (by intros [? ?]);
      done.
Qed.

End FormatterMore.

(** ** What [translate] reads *)

Section TranslateReads.

Context `{PyBuiltins}.

Implicit Types (self : Translator.t) (k l : pystr) (h : heap).
Implicit Types (params : option positive) (count : option Z).

Lemma translate_loop_agree self self' k (cands : list pystr) (p : positive) count h :
  (∀ c, c ∈ cands →
        TranslationStore.get_translation (Translator.store self') c k
        = TranslationStore.get_translation (Translator.store self) c k
        ∧ TranslationStore.get_locale (Translator.store self') c ≫= plural_rule
          = TranslationStore.get_locale (Translator.store self) c ≫= plural_rule) →
  Translator.translate_loop self' k cands p count h
  = Translator.translate_loop self k cands p count h.
Proof.
  induction cands as [|c cands IH]; intros Hagree; [done|].
  cbn [Translator.translate_loop].
  destruct (Hagree c) as [-> Hrule]; [by left|].
  destruct (TranslationStore.get_translation (Translator.store self) c k) as [tr|].
  - unfold Translator.resolve, Translator._get_plural_form. by rewrite Hrule.
  - apply IH. intros c' Hc'. apply Hagree. by right.
Qed.

(** X19. [translate] reads the store under its candidate locales and the
    key asked for, and nowhere else: two stores that agree there, on the
    translations and on the plural rules, give the same result. *)
Theorem translate_reads_candidates self (st' : TranslationStore.t) k
    (lo : option pystr) params count (dflt : option pystr) h :
  (∀ c, c ∈ Translator.locales_to_try self (Translator.locale_or_default self lo) →
        TranslationStore.get_translation st' c k
        = TranslationStore.get_translation (Translator.store self) c k
        ∧ TranslationStore.get_locale st' c ≫= plural_rule
          = TranslationStore.get_locale (Translator.store self) c ≫= plural_rule) →
  Translator.translate
    {| Translator.store := st';
       Translator.default_locale := Translator.default_locale self;
       Translator.fallback_chain := Translator.fallback_chain self |}
    k lo params count dflt h
  = Translator.translate self k lo params count dflt h.
Proof.
  intros Hagree. rewrite !translate_unfold.
  unfold Translator.locale_or_default, Translator.locales_to_try in *.
  cbn [Translator.default_locale Translator.fallback_chain] in *.
  by rewrite (translate_loop_agree self).
Qed.

Lemma translate_loop_no_plurals self k (cands : list pystr) (p : positive) count h :
  (∀ c, c ∈ cands → ∀ tr,
        TranslationStore.get_translation (Translator.store self) c k = Some tr →
        plural_forms tr = []) →
  Translator.translate_loop self k cands p count h
  = Translator.translate_loop self k cands p None h.
Proof.
  induction cands as [|c cands IH]; intros Hplain; [done|].
  cbn [Translator.translate_loop].
  destruct (TranslationStore.get_translation (Translator.store self) c k)
    as [tr|] eqn:Hget.
  - unfold Translator.resolve. rewrite (Hplain c) with (tr := tr); [|by left|done].
    by destruct count.
  - apply IH. intros c' Hc'. apply Hplain. by right.
Qed.

(** X20. Where the translations of a key have no plural forms, [count]
    plays no part: it is not handed to the interpolation, so a
    "{{count}}" in such a text is filled from [params] or left as it
    is, and [params] is not written to. *)
Theorem count_unused_without_plurals self k (lo : option pystr) params
    (n : Z) (dflt : option pystr) h :
  (∀ c, c ∈ Translator.locales_to_try self (Translator.locale_or_default self lo) →
        ∀ tr, TranslationStore.get_translation (Translator.store self) c k = Some tr →
              plural_forms tr = []) →
  Translator.translate self k lo params (Some n) dflt h
  = Translator.translate self k lo params None dflt h.
Proof.
  intros Hplain. rewrite !translate_unfold.
  by rewrite (translate_loop_no_plurals self k _ _ (Some n)).
Qed.

End TranslateReads.

(** * Concrete runs

    The general statements above, applied to inputs of the examples under
    [ascii_runtime]. *)

Section ConcreteRuns.

Local Existing Instance ascii_runtime.

(** The entry of "welcome" in the store of the examples. *)
Lemma example_welcome :
  TranslationStore.get_translation
    (Translator.store example_translator) (u "en-US") (u "welcome")
  = Some {| key := u "welcome"; locale := u "en-US";
            value := PStr (u "Welcome to BlackRoad");
            plural_forms := []; context := []; metadata := [] |}.
Proof. vm_compute. reflexivity. Qed.

Lemma translate_first_candidate_witness :
  Translator.translate example_translator (u "welcome")
    (Some (u "en-GB")) None None None ∅
  = Translator.resolve example_translator (u "en-US")
      {| key := u "welcome"; locale := u "en-US";
         value := PStr (u "Welcome to BlackRoad");
         plural_forms := []; context := []; metadata := [] |}
      (fst (Translator.params_or_new None ∅)) None
      (snd (Translator.params_or_new None ∅)).
Proof.
  apply (proj1 (@translate_first_candidate ascii_runtime)
           example_translator (u "welcome") (Some (u "en-GB")) None None None ∅
           [u "en-GB"] [u "en-US"] (u "en-US")).
  - reflexivity.
  - intros c' Hc'. apply list_elem_of_singleton in Hc' as ->.
    vm_compute. reflexivity.
  - apply example_welcome.
Defined.

Lemma example_items_stored :
  TranslationStore.get_translation (Translator.store example_translator)
    (u "en-US") (u "items") = Some example_items.
Proof. vm_compute. reflexivity. Qed.

Lemma translate_plural_selection_witness :
  fst (Translator.translate example_translator (u "items") None None (Some 1%Z) None ∅)
  = Translator._interpolate (PStr (u "{{count}} item"))
      (<[u "count" := PInt 1]> (params_content None ∅)).
Proof.
  apply (proj1 translate_plural_selection
           example_translator (u "items") None None 1%Z None ∅
           [] [u "en-US"] (u "en-US") example_items).
  - reflexivity.
  - intros c' Hc'. by apply not_elem_of_nil in Hc'.
  - apply example_items_stored.
  - discriminate.
Defined.

Lemma translate_missing_key_witness :
  fst (Translator.translate example_translator (u "missing.key") None None None None ∅)
  = Returns (u "missing.key").
Proof.
  apply (proj1 translate_missing_key
           example_translator (u "missing.key") None None None None ∅).
  intros c Hc.
  apply elem_of_cons in Hc as [-> | Hc]; [vm_compute; reflexivity|].
  apply elem_of_cons in Hc as [-> | Hc]; [vm_compute; reflexivity|].
  by apply not_elem_of_nil in Hc.
Defined.

Lemma translate_params_effect_witness :
  snd (Translator.translate example_translator (u "items") None (Some 1%positive)
         (Some 2%Z) None {[ 1%positive := <[u "name" := PStr (u "x")]> ∅ ]})
    !! 1%positive
  = Some (<[u "count" := PInt 2]> (<[u "name" := PStr (u "x")]> ∅)).
Proof.
  apply (proj1 (translate_params_effect
           example_translator (u "items") None 1%positive
           (<[u "name" := PStr (u "x")]> ∅) (Some 2%Z) None
           {[ 1%positive := <[u "name" := PStr (u "x")]> ∅ ]}
           (lookup_singleton_eq _ _))
           2%Z (u "en-US") example_items).
  - apply insert_non_empty.
  - reflexivity.
  - exists [], [u "en-US"]. split; [reflexivity|]. split.
    + intros c' Hc'. by apply not_elem_of_nil in Hc'.
    + apply example_items_stored.
  - discriminate.
Defined.

(** C10 as stated fails: an empty dictionary passed as [params] is not
    the one that receives "count". *)
Lemma translate_params_empty_counterexample :
  ({[ 1%positive := ∅ ]} : heap) !! 1%positive = Some ∅
  ∧ TranslationStore.get_translation (Translator.store example_translator)
      (u "en-US") (u "items") = Some example_items
  ∧ plural_forms example_items ≠ []
  ∧ snd (Translator.translate example_translator (u "items") None (Some 1%positive)
           (Some 1%Z) None {[ 1%positive := ∅ ]}) !! 1%positive
    = Some ∅
  ∧ (Some ∅ : option (gmap pystr pyval)) ≠ Some (<[u "count" := PInt 1]> ∅).
Proof.
  split; [apply lookup_singleton_eq|]. split; [apply example_items_stored|].
  split; [discriminate|]. split.
  - vm_compute. reflexivity.
  - intros Heq. apply (inj Some) in Heq. symmetry in Heq.
    by apply insert_non_empty in Heq.
Qed.

Lemma load_json_flattens_witness :
  leaf_translations (u "en-US") (u "greeting") (PStr (u "Hello"))
  = [ {| key := u "greeting"; locale := u "en-US"; value := PStr (py_str (PStr (u "Hello")));
         plural_forms := []; context := []; metadata := [] |} ].
Proof.
  apply (proj1 (proj2 (proj2 load_json_flattens))
           (u "en-US") (u "greeting") (PStr (u "Hello"))).
  intros d. discriminate.
Defined.

Lemma interpolate_single_pass_witness :
  Translator._interpolate
    (PStr (render_template [ (u "Hello, ", u "name") ] (u "!")))
    (<[u "name" := PStr (u "{{name}}")]> ∅)
  = Returns (fill_template (<[u "name" := PStr (u "{{name}}")]> ∅)
               [ (u "Hello, ", u "name") ] (u "!")).
Proof.
  apply (proj1 interpolate_single_pass).
  split; [|reflexivity].
  constructor; [|constructor]. split; reflexivity.
Defined.


(** A second entry for "items" under en-US, without plural forms. *)
Lemma add_translation_overwrites_witness :
  TranslationStore.add_translation
    (TranslationStore.add_translation TranslationStore.init example_items)
    {| key := u "items"; locale := u "en-US"; value := PStr (u "items");
       plural_forms := []; context := []; metadata := [] |}
  = TranslationStore.add_translation TranslationStore.init
      {| key := u "items"; locale := u "en-US"; value := PStr (u "items");
         plural_forms := []; context := []; metadata := [] |}.
Proof.
  apply (proj1 (add_translation_overwrites TranslationStore.init example_items
                  {| key := u "items"; locale := u "en-US"; value := PStr (u "items");
                     plural_forms := []; context := []; metadata := [] |}));
    reflexivity.
Defined.

Lemma load_json_lookup_witness :
  TranslationStore.get_translation
    (snd (TranslationStore.load_json TranslationStore.init (u "en-US")
            example_data []))
    (u "fr-FR") (u "welcome")
  = TranslationStore.get_translation TranslationStore.init (u "fr-FR") (u "welcome").
Proof.
  apply (proj1 (proj2 (load_json_lookup TranslationStore.init (u "en-US")
                         example_data []))).
  intros Heq. vm_compute in Heq. discriminate Heq.
Defined.

Lemma load_json_under_prefix_witness :
  TranslationStore.get_translation
    (snd (TranslationStore.load_json TranslationStore.init (u "en-US")
            example_data (u "app")))
    (u "en-US") (u "welcome")
  = TranslationStore.get_translation TranslationStore.init (u "en-US") (u "welcome").
Proof.
  apply (load_json_under_prefix TranslationStore.init (u "en-US") example_data
           (u "app") (u "welcome")).
  - intros Heq. vm_compute in Heq. discriminate Heq.
  - vm_compute. reflexivity.
Defined.

Lemma has_translation_translate_witness :
  ∃ tr,
    TranslationStore.get_translation (Translator.store example_translator)
      (Translator.locale_or_default example_translator None) (u "welcome") = Some tr
    ∧ Translator.translate example_translator (u "welcome") None None None None ∅
      = Translator.resolve example_translator
          (Translator.locale_or_default example_translator None) tr
          (fst (Translator.params_or_new None ∅)) None
          (snd (Translator.params_or_new None ∅)).
Proof.
  apply (has_translation_translate example_translator (u "welcome")
           None None None None ∅).
  vm_compute. reflexivity.
Defined.

Lemma translate_frame_witness :
  snd (Translator.translate example_translator (u "items") None (Some 1%positive)
         (Some 2%Z) None
         (<[2%positive := <[u "count" := PInt 7]> ∅]>
            {[ 1%positive := <[u "name" := PStr (u "x")]> ∅ ]}))
    !! 2%positive
  = (<[2%positive := <[u "count" := PInt 7]> ∅]>
       {[ 1%positive := <[u "name" := PStr (u "x")]> ∅ ]} : heap) !! 2%positive.
Proof.
  apply (translate_frame example_translator (u "items") None (Some 1%positive)
           (Some 2%Z) None).
  - eexists. apply lookup_insert_eq.
  - discriminate.
Defined.

Lemma interpolate_unchanged_witness :
  Translator._interpolate (PStr (u "Welcome to BlackRoad"))
    (<[u "name" := PStr (u "x")]> ∅)
  = Returns (u "Welcome to BlackRoad").
Proof.
  apply (proj2 (proj2 (interpolate_unchanged (<[u "name" := PStr (u "x")]> ∅)
                         (u "Welcome to BlackRoad")))).
  vm_compute. reflexivity.
Defined.

Lemma load_then_translate_witness :
  fst (I18n.t_
         (I18n.set_locale
            (snd (I18n.load_translations (I18n.init (u "en-US")) (u "fr-FR")
                    [(u "greeting", PStr (u "Bonjour, {{name}}!"))]))
            (u "fr-FR"))
         (u "greeting") None None None ∅)
  = Returns (py_str (PStr (u "Bonjour, {{name}}!"))).
Proof.
  apply (proj2 load_then_translate (I18n.init (u "en-US")) (u "fr-FR")
           (u "greeting") (PStr (u "Bonjour, {{name}}!")) None None ∅).
  - intros Heq. vm_compute in Heq. discriminate Heq.
  - intros d. discriminate.
Defined.

Lemma store_keyed_witness :
  keyed (TranslationStore.add_translation TranslationStore.init example_items).
Proof.
  apply (proj1 (proj2 (proj2 store_keyed)) TranslationStore.init example_items).
  apply (proj1 store_keyed).
Defined.

(** en-US is registered again, with the date format of en-GB, after
    its formatter was built: the formatter returned is the first one. *)
Lemma formatter_cache_first_wins_witness :
  LocaleManager.get_formatter example_registered_again None
  = (Some TranslationStore.en_US, example_registered_again).
Proof.
  apply (proj1 (formatter_cache_first_wins
           (I18n.locale_manager (I18n.init (u "en-US")))
           (snd (LocaleManager.get_formatter
                   (I18n.locale_manager (I18n.init (u "en-US"))) None))
           None (Some TranslationStore.en_US)
           ltac:(vm_compute; reflexivity))).
Defined.

(** es-MX has a fallback for translations, es-ES, and no locale of its
    own: its numbers are formatted as the default locale's. *)
Lemma formatter_of_unknown_locale_witness :
  fst (LocaleManager.get_formatter (I18n.locale_manager (I18n.init (u "en-US")))
         (Some (u "es-MX")))
  = Some TranslationStore.en_US.
Proof.
  destruct (formatter_of_unknown_locale
              (I18n.locale_manager (I18n.init (u "en-US"))) (u "es-MX")
              (TranslationStore.default_locale_record (u "es-MX")
                 (u "Spanish (Mexico)") (u "Spanish (Mexico)")))
    as [Hw _].
  - intros Heq. vm_compute in Heq. discriminate Heq.
  - vm_compute. reflexivity.
  - vm_compute. reflexivity.
  - reflexivity.
  - rewrite Hw. vm_compute. reflexivity.
Defined.

(** The date is formatted by the formatter built first, "YYYY-MM-DD",
    not by the locale registered since. *)
Lemma format_date_and_str_witness :
  fst (I18n.format {| I18n.locale_manager := example_registered_again |}
         (ADate {| year := 2024; month := 1; day := 2 |}) (u "percentage"))
  = Some (Formatter.date TranslationStore.en_US
            {| year := 2024; month := 1; day := 2 |} None).
Proof.
  apply (proj1 (format_date_and_str
                  {| I18n.locale_manager := example_registered_again |}
                  (u "percentage"))
           TranslationStore.en_US
           ltac:(vm_compute; reflexivity)
           (λ Heq, ltac:(vm_compute in Heq; discriminate Heq))
           (λ Heq, ltac:(vm_compute in Heq; discriminate Heq))
           {| year := 2024; month := 1; day := 2 |}
           {| dt_date := {| year := 2024; month := 1; day := 2 |};
              hour := 0; minute := 0; second := 0 |}).
Defined.

(** A French entry for "welcome" is not read when en-US is asked for. *)
Lemma translate_reads_candidates_witness :
  Translator.translate
    {| Translator.store :=
         TranslationStore.add_translation (Translator.store example_translator)
           {| key := u "welcome"; locale := u "fr-FR"; value := PStr (u "Bienvenue");
              plural_forms := []; context := []; metadata := [] |};
       Translator.default_locale := Translator.default_locale example_translator;
       Translator.fallback_chain := Translator.fallback_chain example_translator |}
    (u "welcome") None None None None ∅
  = Translator.translate example_translator (u "welcome") None None None None ∅.
Proof.
  apply (translate_reads_candidates example_translator
           (TranslationStore.add_translation (Translator.store example_translator)
              {| key := u "welcome"; locale := u "fr-FR"; value := PStr (u "Bienvenue");
                 plural_forms := []; context := []; metadata := [] |})
           (u "welcome") None None None None ∅).
  intros c Hc.
  apply elem_of_cons in Hc as [-> | Hc]; [split; vm_compute; reflexivity|].
  apply elem_of_cons in Hc as [-> | Hc]; [split; vm_compute; reflexivity|].
  by apply not_elem_of_nil in Hc.
Defined.

Lemma count_unused_without_plurals_witness :
  Translator.translate example_translator (u "greeting") None None (Some 5%Z) None ∅
  = Translator.translate example_translator (u "greeting") None None None None ∅.
Proof.
  apply (count_unused_without_plurals example_translator (u "greeting")
           None None 5%Z None ∅).
  intros c Hc tr Htr.
  apply elem_of_cons in Hc as [-> | Hc];
    [vm_compute in Htr; injection Htr as <-; reflexivity|].
  apply elem_of_cons in Hc as [-> | Hc];
    [vm_compute in Htr; injection Htr as <-; reflexivity|].
  by apply not_elem_of_nil in Hc.
Defined.

End ConcreteRuns.
